(** * node-identity-face-ng: feature normalization, distance engine and
      partition scanner

    A shallow embedding of [face.js] (classes [Point], [Points],
    [FaceLandmark], [FaceFeatures]), of the face-ng and face-api workers
    ([verify], [getFaceFeatures], the [Worker.on('message')] handler) and of
    the payload normalization of [index.js], followed by the properties of
    the specification that were checked against them and by further
    properties of the code.

    JavaScript numbers are IEEE 754 binary64 values; they are embedded as
    Rocq's primitive floats, so [NaN], the infinities, signed zeros and
    rounding behave as they do in the program. *)

From Stdlib Require Import Floats ZArith List String Bool Lia.
From stdpp Require Import base list relations.
Import ListNotations.

Local Open Scope Z_scope.

(** ** JavaScript values used by the program *)

Module JS.

(** A JavaScript number. *)
Definition number : Type := float.

(** The falsy values of the language; [JNull] is the sentinel the worker
    writes for a sample without a face. *)
Inductive falsy : Type :=
| JUndefined | JNull | JFalse | JZero | JNaN | JEmptyString.

(** An argument that is either a falsy value or an object of type [A]
    (objects are always truthy). *)
Inductive arg (A : Type) : Type :=
| Falsy (v : falsy)
| Obj (a : A).
Arguments Falsy {A} v.
Arguments Obj {A} a.

(** What the program can throw. *)
Inductive error : Type :=
| ShapeMismatch
    (* new Error('Unable to compare between different face features!') *)
| TypeError
    (* reading a property of undefined *)
| Rejected (reason : string)
    (* a rejection of the external detector *).

(** Outcome of a call: a returned value or a thrown error. *)
Inductive result (A : Type) : Type :=
| Ok (a : A)
| Throw (e : error).
Arguments Ok {A} a.
Arguments Throw {A} e.

Definition bind {A B} (r : result A) (k : A -> result B) : result B :=
  match r with
  | Ok a => k a
  | Throw e => Throw e
  end.

(** Left-to-right evaluation of a callback over an array, stopping at the
    first throw. *)
Fixpoint mapM {A B} (f : A -> result B) (l : list A) : result (list B) :=
  match l with
  | [] => Ok []
  | a :: l' => bind (f a) (fun b => bind (mapM f l') (fun bs => Ok (b :: bs)))
  end.

(** ToNumber of a value that is a number or [undefined]. *)
Definition to_number (v : option number) : number :=
  match v with
  | Some n => n
  | None => nan
  end.

(** The number an array length denotes. *)
Definition of_length (n : nat) : number :=
  PrimFloat.of_uint63 (Uint63.of_Z (Z.of_nat n)).

Definition is_neg_zero (n : number) : bool :=
  match classify n with NZero => true | _ => false end.

Definition is_pos_zero (n : number) : bool :=
  match classify n with PZero => true | _ => false end.

(** [Math.min(...l)], ECMAScript 21.3.2.25: the running value starts at
    +Infinity, a NaN argument makes the result NaN, and -0 is smaller
    than +0. *)
Fixpoint Math_min_from (lowest : number) (l : list number) : number :=
  match l with
  | [] => lowest
  | n :: l' =>
      if is_nan n then nan
      else
        let lowest := if is_neg_zero n && is_pos_zero lowest then n else lowest in
        Math_min_from (if (n <? lowest)%float then n else lowest) l'
  end.

Definition Math_min (l : list number) : number := Math_min_from infinity l.

(** [Math.max(...l)], ECMAScript 21.3.2.24. *)
Fixpoint Math_max_from (highest : number) (l : list number) : number :=
  match l with
  | [] => highest
  | n :: l' =>
      if is_nan n then nan
      else
        let highest := if is_pos_zero n && is_neg_zero highest then n else highest in
        Math_max_from (if (highest <? n)%float then n else highest) l'
  end.

Definition Math_max (l : list number) : number := Math_max_from neg_infinity l.

Definition Math_abs (n : number) : number := abs n.
Definition Math_sqrt (n : number) : number := PrimFloat.sqrt n.

#[global] Instance result_ret : MRet result := @Ok.
#[global] Instance result_bind : MBind result := fun A B k r => bind r k.

End JS.

(** ** face.js *)

(** *** class Point *)

Module Point.

(** The coordinate properties ['x'], ['y'], ['z']. *)
Inductive key : Type := kx | ky | kz.

(** [this.orig]: the value each coordinate had before its last rewrite. *)
Record orig_t : Type := mk_orig {
  orig_x : option JS.number;
  orig_y : option JS.number;
  orig_z : option JS.number;
}.

Record t : Type := mk {
  name : option string;
  x : JS.number;
  y : JS.number;
  z : JS.number;
  orig : option orig_t;
}.

(** A keypoint as the detector delivers it: [{name, x, y, z}], three
    numbers and a name that may be missing. *)
Record keypoint : Type := mk_keypoint {
  kp_name : option string;
  kp_x : JS.number;
  kp_y : JS.number;
  kp_z : JS.number;
}.

(** [static from({name, x, y, z})], through the constructor. *)
Definition from (k : keypoint) : t :=
  {| name := kp_name k; x := kp_x k; y := kp_y k; z := kp_z k; orig := None |}.

Definition get (k : key) (p : t) : JS.number :=
  match k with kx => x p | ky => y p | kz => z p end.

Definition set (k : key) (v : JS.number) (p : t) : t :=
  match k with
  | kx => {| name := name p; x := v; y := y p; z := z p; orig := orig p |}
  | ky => {| name := name p; x := x p; y := v; z := z p; orig := orig p |}
  | kz => {| name := name p; x := x p; y := y p; z := v; orig := orig p |}
  end.

(** [this.orig[k] = this[k]], creating [this.orig] when it is undefined. *)
Definition set_orig (k : key) (v : JS.number) (p : t) : t :=
  let o := match orig p with
           | Some o => o
           | None => mk_orig None None None
           end in
  let o' := match k with
            | kx => mk_orig (Some v) (orig_y o) (orig_z o)
            | ky => mk_orig (orig_x o) (Some v) (orig_z o)
            | kz => mk_orig (orig_x o) (orig_y o) (Some v)
            end in
  {| name := name p; x := x p; y := y p; z := z p; orig := Some o' |}.

(** [flatten()] *)
Definition flatten (p : t) : list JS.number := [x p; y p; z p].

Inductive op : Type := OpAdd | OpSub | OpMul | OpDiv.

Definition apply_op (o : op) (a v : JS.number) : JS.number :=
  match o with
  | OpAdd => (a + v)%float
  | OpSub => (a - v)%float
  | OpMul => (a * v)%float
  | OpDiv => (a / v)%float
  end.

(** The parameter object of [normalize]; [None] is an entry that is
    undefined or null. *)
Record args : Type := mk_args {
  xMin : option JS.number;
  yMin : option JS.number;
  zMin : option JS.number;
  xScale : option JS.number;
  yScale : option JS.number;
  zScale : option JS.number;
}.

(** The local closure [f(k, v, op)] of [normalize]. *)
Definition f (k : key) (v : option JS.number) (o : op) (p : t) : t :=
  match v with
  | None => p
  | Some v =>
      let p1 := set_orig k (get k p) p in
      set k (apply_op o (get k p1) v) p1
  end.

(** [normalize({xMin, yMin, zMin, xScale, yScale, zScale})] *)
Definition normalize (a : args) (p : t) : t :=
  fold_left (fun p '(k, v, o) => f k v o p)
    [ (kx, xMin a, OpSub);
      (ky, yMin a, OpSub);
      (kz, zMin a, OpSub);
      (kx, xScale a, OpMul);
      (ky, yScale a, OpMul);
      (kz, zScale a, OpMul) ] p.

(** [toJSON()]: the coordinates and the name; [orig] is not part of it. *)
Definition toJSON (p : t) : keypoint :=
  {| kp_name := name p; kp_x := x p; kp_y := y p; kp_z := z p |}.

End Point.

(** *** class Points *)

Module Points.

Record t : Type := mk { points : list Point.t }.

(** [new Points(points)]: the constructor keeps the instances of
    [Point], which every element of a [list Point.t] is. *)
Definition new (ps : list Point.t) : t := mk ps.

(** [static from(points)] *)
Definition from (ks : list Point.keypoint) : t := new (map Point.from ks).

(** [getNamed(name)] *)
Definition getNamed (name : string) (ps : t) : list Point.t :=
  List.filter (fun p => match Point.name p with
                        | Some n => String.eqb n name
                        | None => false
                        end) (points ps).

(** [getMean(axis)] *)
Definition getMean (k : Point.key) (ps : t) : JS.number :=
  (fold_left PrimFloat.add (map (Point.get k) (points ps)) 0
     / JS.of_length (length (points ps)))%float.

(** [getMin(axis)] *)
Definition getMin (k : Point.key) (ps : t) : JS.number :=
  JS.Math_min (map (Point.get k) (points ps)).

(** [getMax(axis)] *)
Definition getMax (k : Point.key) (ps : t) : JS.number :=
  JS.Math_max (map (Point.get k) (points ps)).

(** [flatten()] *)
Definition flatten (ps : t) : list JS.number :=
  fold_left (fun res p => res ++ Point.flatten p) (points ps) [].

(** [normalize(args)] *)
Definition normalize (a : Point.args) (ps : t) : t :=
  mk (map (Point.normalize a) (points ps)).

(** [toJSON()] *)
Definition toJSON (ps : t) : list Point.keypoint := map Point.toJSON (points ps).

End Points.

(** *** class FaceFeatures *)

Module FaceFeatures.

(** A [FaceFeatures] object (or the plain object a feature vector is on
    the wire): its own enumerable properties in the order [Object.keys]
    lists them, each a flat array of numbers. The keys of an object are
    pairwise distinct. *)
Definition t : Type := list (string * list JS.number).

(** [Object.keys(this)] *)
Definition keys (this : t) : list string := map fst this.

(** [this[key]] *)
Fixpoint get (key : string) (this : t) : option (list JS.number) :=
  match this with
  | [] => None
  | (k, v) :: rest => if String.eqb k key then Some v else get key rest
  end.

(** [this[key] = v]: an existing property keeps its place, a new one is
    added last. *)
Fixpoint set (key : string) (v : list JS.number) (this : t) : t :=
  match this with
  | [] => [(key, v)]
  | (k, w) :: rest =>
      if String.eqb k key then (k, v) :: rest else (k, w) :: set key v rest
  end.

(** [add(key, points)] *)
Definition add (key : string) (points : Points.t + list JS.number) (this : t) : t :=
  set key (match points with
           | inl ps => Points.flatten ps
           | inr v => v
           end) this.

(** [static from(data)] *)
Definition from (data : list (string * list JS.number)) : t :=
  fold_left (fun feat '(k, v) => add k (inr v) feat) data [].

(** The object [Point.from({x: v, y: features[feature][k]})] that
    [distance] builds: only its [x] and [y] are read, and [y] is left
    unset when [features[feature][k]] is undefined. *)
Record xy : Type := mk_xy { x : JS.number; y : option JS.number }.

(** The body of the loop of [distance] for one feature: [arr] is
    [this[feature]], [other] is [features[feature]]. Reading
    [features[feature][k]] throws when [features[feature]] is undefined,
    which happens as soon as [arr] has a first element. *)
Definition distance_feature (arr : list JS.number) (other : option (list JS.number))
  : JS.result JS.number :=
  pairs ← match arr, other with
           | [], _ => JS.Ok []
           | _ :: _, None => JS.Throw JS.TypeError
           | _ :: _, Some ys => JS.Ok (imap (fun k v => mk_xy v (ys !! k)) arr)
           end;
  JS.Ok (JS.Math_sqrt
           (fold_left (fun a b => (a + b * b)%float)
              (map (fun p => (x p - JS.to_number (y p))%float) pairs) 0%float)).

(** [distance(features)] *)
Definition distance (this : t) (features : JS.arg t) : JS.result (option JS.number) :=
  match features with
  | JS.Falsy _ => JS.Ok None
  | JS.Obj features =>
      if negb (Nat.eqb (length (keys this)) (length (keys features)))
      then JS.Throw JS.ShapeMismatch
      else
        values ← JS.mapM (fun '(feature, arr) =>
                            distance_feature arr (get feature features)) this;
        JS.Ok (Some (fold_left PrimFloat.add values 0 / JS.of_length (length values))%float)
  end.

(** One turn of the loop of [find]; the state is [(index, conf)]. *)
Definition find_step (this : t) (confidence : JS.number)
    (st : option nat * option JS.number) (idx : nat) (features : JS.arg t)
  : JS.result (option nat * option JS.number) :=
  dist ← distance this features;
  JS.Ok match dist with
        | Some dist =>
            if (dist <=? confidence)%float
               && match snd st with
                  | None => true
                  | Some conf => (dist <? conf)%float
                  end
            then (Some idx, Some dist)
            else st
        | None => st
        end.

Fixpoint find_from (this : t) (confidence : JS.number)
    (entries : list (nat * JS.arg t)) (st : option nat * option JS.number)
  : JS.result (option nat * option JS.number) :=
  match entries with
  | [] => JS.Ok st
  | (idx, features) :: rest =>
      st' ← find_step this confidence st idx features;
      find_from this confidence rest st'
  end.

(** The literal [0.075], i.e. the nearest binary64 value. *)
Definition default_confidence : JS.number := 0x1.3333333333333p-4%float.

(** [find(featuresList, confidence = 0.075)]; the result is the array
    [[index, conf]]. *)
Definition find (this : t) (featuresList : list (JS.arg t)) (confidence : JS.number)
  : JS.result (option nat * option JS.number) :=
  find_from this confidence (imap pair featuresList) (None, None).

End FaceFeatures.

(** *** class FaceLandmark *)

Module FaceLandmark.

Record Box : Type := mk_box {
  xMin : JS.number;
  yMin : JS.number;
  width : JS.number;
  height : JS.number;
}.

(** The constructor's parameter [{shape, box, keypoints}]. *)
Record detected : Type := mk_detected {
  d_shape : option (list Z);
  d_box : Box;
  d_keypoints : list Point.keypoint;
}.

Record t : Type := mk {
  shape : option (list Z);
  box : Box;
  points : Points.t;
  named : list (string * Points.t);      (* this[key] for the marker keys *)
  features : option FaceFeatures.t;      (* this.features *)
}.

Definition markers : list (string * bool) :=
  [ ("faceOval", false);
    ("leftEye", true);
    ("leftEyebrow", false);
    ("leftIris", true);
    ("lips", true);
    ("rightEye", true);
    ("rightEyebrow", false);
    ("rightIris", true) ]%string.

Definition scale : JS.number := 1%float.

(** The argument of [this.points.normalize] in the constructor, computed
    from the points before they are rewritten. *)
Definition normalize_args (b : Box) (ps : Points.t) : Point.args :=
  {| Point.xMin := Some (xMin b);
     Point.yMin := Some (yMin b);
     Point.zMin := Some (Points.getMin Point.kz ps);
     Point.xScale := Some (scale / width b)%float;
     Point.yScale := Some (scale / height b)%float;
     Point.zScale :=
       Some (scale / JS.Math_abs (Points.getMax Point.kz ps - Points.getMin Point.kz ps))%float |}.

(** [constructor({shape, box, keypoints})] *)
Definition new (d : detected) : t :=
  let points0 := Points.from (d_keypoints d) in
  let points1 := Points.normalize (normalize_args (d_box d) points0) points0 in
  {| shape := d_shape d;
     box := d_box d;
     points := points1;
     named :=
       fold_left (fun acc key =>
                    let points := Points.getNamed key points1 in
                    match points with
                    | [] => acc
                    | _ :: _ => acc ++ [(key, Points.new points)]
                    end) (map fst markers) [];
     features := None |}.

(** [this[key]] for a marker key. *)
Fixpoint get (key : string) (l : list (string * Points.t)) : option Points.t :=
  match l with
  | [] => None
  | (k, v) :: rest => if String.eqb k key then Some v else get key rest
  end.

(** [getFeatures()]: the feature vector, and the object with
    [this.features] filled in. *)
Definition getFeatures (this : t) : t * FaceFeatures.t :=
  match features this with
  | Some f => (this, f)
  | None =>
      let f := fold_left (fun feat '(key, isFeature) =>
                            match isFeature, get key (named this) with
                            | true, Some ps => FaceFeatures.add key (inl ps) feat
                            | _, _ => feat
                            end) markers [] in
      ({| shape := shape this; box := box this; points := points this;
          named := named this; features := Some f |}, f)
  end.

(** [compare(face)]: the result, with both objects after the call (each
    [getFeatures] fills its object's cache). *)
Definition compare (this : t) (face : JS.arg t)
  : t * JS.arg t * JS.result (option JS.number) :=
  match face with
  | JS.Falsy v => (this, JS.Falsy v, JS.Ok None)
  | JS.Obj face =>
      let '(this', f) := getFeatures this in
      let '(face', g) := getFeatures face in
      (this', JS.Obj face', FaceFeatures.distance f (JS.Obj g))
  end.

End FaceLandmark.

(** ** The face-ng worker *)

Module Worker.

(** A slot of [work.items]. *)
Inductive item : Type :=
| Raw (data : list Z)
    (* {type: 'Buffer', data: [...]}: raw image bytes *)
| Features (f : FaceFeatures.t)
    (* a feature vector computed earlier *)
| Empty (v : JS.falsy)
    (* a falsy slot; [null] is written for a sample without a face *).

(** The [work] object of a [do] command. [items] is mutated in place. *)
Record Work : Type := mk_work {
  id : string;
  items : list item;
  feature : list (string * list JS.number);
}.

Record Matched : Type := mk_matched {
  label : option Z;
  confidence : JS.number;
}.

(** What [Worker.send] transmits; [done] carries the work object as it is
    when the message is sent. *)
Inductive message : Type :=
| update (index : Z) (data : item) (worker : Z)
| done (work : Work) (matched : option Matched) (worker : Z).

(** The calls of [log] and [error]. *)
Inductive log_entry : Type :=
| LogVerifying (work_id : string) (start end_ : Z)
| LogPreparing
| LogFindMatch
| LogDone (count : nat)
| LogErr (err : JS.error)
| LogStopping.

(** What [detector.getFaces(img)] resolves to: [{faces, shape}], with
    [faces = None] when the property is falsy. *)
Record Detection : Type := mk_detection {
  faces : option (list FaceLandmark.detected);
  shape : option (list Z);
}.

(** The collaborators of the worker, which are not part of it. *)
Record env : Type := mk_env {
  (* Worker.id *)
  worker_id : Z;
  (* FaceDetection.getFaces: given the inputs of the earlier calls and
     the image, the detection it resolves to or the error it rejects
     with *)
  detector_getFaces : list (list Z) -> list Z -> JS.result Detection;
  (* whether the host's stop message is handled while the iteration for
     an index is suspended in its await *)
  stop_during : Z -> bool;
}.

(** The state the worker's code reads and writes: the work object in
    progress, the module variable [stopped], the inputs the detector has
    been called with, the messages sent and the lines logged. *)
Record state : Type := mk_state {
  work : Work;
  stopped : bool;
  calls : list (list Z);
  outbox : list message;
  log : list log_entry;
}.

Definition set_items (l : list item) (st : state) : state :=
  {| work := {| id := id (work st); items := l; feature := feature (work st) |};
     stopped := stopped st; calls := calls st; outbox := outbox st; log := log st |}.

Definition set_work (w : Work) (st : state) : state :=
  {| work := w; stopped := stopped st; calls := calls st;
     outbox := outbox st; log := log st |}.

Definition set_stopped (b : bool) (st : state) : state :=
  {| work := work st; stopped := b; calls := calls st;
     outbox := outbox st; log := log st |}.

Definition add_call (img : list Z) (st : state) : state :=
  {| work := work st; stopped := stopped st; calls := calls st ++ [img];
     outbox := outbox st; log := log st |}.

Definition add_message (m : message) (st : state) : state :=
  {| work := work st; stopped := stopped st; calls := calls st;
     outbox := outbox st ++ [m]; log := log st |}.

Definition add_log (e : log_entry) (st : state) : state :=
  {| work := work st; stopped := stopped st; calls := calls st;
     outbox := outbox st; log := log st ++ [e] |}.

(** Computations of the worker: a state transformer that returns or
    throws. *)
Definition M (A : Type) : Type := state -> JS.result A * state.

Definition ret {A} (a : A) : M A := fun st => (JS.Ok a, st).

Definition bind {A B} (m : M A) (k : A -> M B) : M B :=
  fun st => match m st with
            | (JS.Ok a, st') => k a st'
            | (JS.Throw e, st') => (JS.Throw e, st')
            end.

Definition gets {A} (f : state -> A) : M A := fun st => (JS.Ok (f st), st).
Definition modify (f : state -> state) : M unit := fun st => (JS.Ok tt, f st).
Definition lift {A} (r : JS.result A) : M A := fun st => (r, st).

(** [try { body } catch (err) { handler(err) }] *)
Definition try_catch {A} (body : M A) (handler : JS.error -> M A) : M A :=
  fun st => match body st with
            | (JS.Ok a, st') => (JS.Ok a, st')
            | (JS.Throw e, st') => handler e st'
            end.

#[global] Instance worker_ret : MRet M := @ret.
#[global] Instance worker_bind : MBind M := fun A B k m => bind m k.

Section WithEnv.

Context (E : env).

(** [log(...)] and [error(...)]: both forward to [debug]. *)
Definition log_ (e : log_entry) : M unit := modify (add_log e).
Definition error_ (e : log_entry) : M unit := modify (add_log e).

(** [Worker.send(msg)] *)
Definition send (m : message) : M unit := modify (add_message m).

(** [items[index]]: undefined outside the array. *)
Definition item_at (index : Z) (l : list item) : option item :=
  if index <? 0 then None else l !! Z.to_nat index.

(** [items[index] = v], for an index that holds a value. *)
Definition assign_item (index : Z) (v : item) : M unit :=
  modify (fun st => set_items (<[Z.to_nat index := v]> (items (work st))) st).

(** [Buffer.from(data.data)]: the bytes, each reduced modulo 256. *)
Definition Buffer_from (data : list Z) : list Z := map (fun b => b mod 256) data.

(** [{shape: detection.shape, ...landmark}] *)
Definition with_shape (s : option (list Z)) (landmark : FaceLandmark.detected)
  : FaceLandmark.detected :=
  {| FaceLandmark.d_shape := match FaceLandmark.d_shape landmark with
                             | Some s' => Some s'
                             | None => s
                             end;
     FaceLandmark.d_box := FaceLandmark.d_box landmark;
     FaceLandmark.d_keypoints := FaceLandmark.d_keypoints landmark |}.

(** [await detector.getFaces(img)]; the detector object of the module
    variable [detector] is represented by the inputs it has seen. *)
Definition call_detector (img : list Z) : M Detection :=
  fun st => (detector_getFaces E (calls st) img, add_call img st).

(** [getFaces(img)] *)
Definition getFaces (img : list Z) : M (option (list FaceLandmark.t)) :=
  detection ← call_detector img;
  match faces detection with
  | Some fs =>
      mret (Some (map (fun landmark =>
                         FaceLandmark.new (with_shape (shape detection) landmark)) fs))
  | None => mret None
  end.

(** [getFaceFeatures(items, index)], on the items of the work in
    progress. *)
Definition getFaceFeatures (index : Z) : M (option FaceFeatures.t) :=
  data ← gets (fun st => item_at index (items (work st)));
  match data with
  | Some (Raw bytes) =>
      let buff := Buffer_from bytes in
      faces ← getFaces buff;
      res ← match faces with
             | Some (face :: _) =>
                 let res := snd (FaceLandmark.getFeatures face) in
                 assign_item index (Features res);;
                 mret (Some res, Features res)
             | _ =>
                 assign_item index (Empty JS.JNull);;
                 mret (None, Empty JS.JNull)
             end;
      send (update index (snd res) (worker_id E));;
      mret (fst res)
  | Some (Features f) => mret (Some f)
  | Some (Empty _) | None => mret None
  end.

(** The [stop] case of the message handler. *)
Definition on_stop : M unit :=
  modify (set_stopped true);;
  log_ LogStopping.

(** [await m] in the iteration for index [current]: while the scan is
    suspended the host's stop message, if it arrives, is handled. *)
Definition awaiting {A} (current : Z) (m : M A) : M A :=
  fun st =>
    let '(r, st') := m st in
    (r, if stop_during E current then snd (on_stop st') else st').

(** The local variables [features], [indices] and [count] of [verify]. *)
Record locals : Type := mk_locals {
  features : list FaceFeatures.t;
  indices : list Z;
  count : nat;
}.

(** The loop [while (current <= end) { ...; current++ }] of [verify].
    [current] starts at [start] and is incremented once per turn, so the
    turns are those for [start], [start + 1], ..., [end] in this order
    (none when [end < start]); [range] below is that list. A turn ends the
    loop by [break] when it finds [stopped] raised, and by a throw when
    [getFaceFeatures] throws. *)
Fixpoint scan (range : list Z) (acc : locals) : M locals :=
  match range with
  | [] => mret acc
  | current :: rest =>
      is_stopped ← gets stopped;
      if (is_stopped : bool) then mret acc
      else
        feature ← awaiting current (getFaceFeatures current);
        scan rest match feature with
                  | Some f => {| features := features acc ++ [f];
                                 indices := indices acc ++ [current];
                                 count := S (count acc) |}
                  | None => acc
                  end
  end.

(** The values of [current] for which [current <= end] holds, from
    [start] upwards. *)
Definition range (start end_ : Z) : list Z := seqZ start (end_ - start + 1).

(** The statements of [verify] inside [try]; the value is that of
    [matched] when the block ends normally. *)
Definition verify_try (start end_ : Z) : M (option Matched) :=
  log_ LogPreparing;;
  acc ← scan (range start end_) (mk_locals [] [] 0);
  is_stopped ← gets stopped;
  matched ← (if negb is_stopped && negb (Nat.eqb (length (features acc)) 0)
             then
               log_ LogFindMatch;;
               probe ← gets (fun st => FaceFeatures.from (feature (work st)));
               found ← lift (FaceFeatures.find probe (map JS.Obj (features acc))
                               FaceFeatures.default_confidence);
               match fst found with
               | Some match_ =>
                   mret (Some {| label := indices acc !! match_;
                                 confidence := (1 - JS.to_number (snd found))%float |})
               | None => mret None
               end
             else mret None);
  log_ (LogDone (count acc));;
  mret matched.

(** [verify(work, start, end)], for the work object held in the state. *)
Definition verify (start end_ : Z) : M unit :=
  w ← gets work;
  log_ (LogVerifying (id w) start end_);;
  matched ← try_catch (verify_try start end_)
              (fun err => error_ (LogErr err);; mret None);
  w' ← gets work;
  send (done w' matched (worker_id E)).

(** The commands of the host. *)
Inductive command : Type :=
| cmd_do (w : Work) (start end_ : Z)
| cmd_stop
| cmd_other.

(** [Worker.on('message', async (data) => ...)] *)
Definition on_message (data : command) : M unit :=
  match data with
  | cmd_do w start end_ =>
      modify (set_stopped false);;
      modify (set_work w);;
      verify start end_
  | cmd_stop => on_stop
  | cmd_other => mret tt
  end.

End WithEnv.

End Worker.

(** ** The face-api worker

    The first worker of the repository differs from the face-ng worker in
    how it reaches the detector: [getFace] asks for one face, where
    [getFaces] asks for all and keeps the first. *)

Module WorkerApi.

(** The collaborators of the face-api worker. *)
Record env : Type := mk_env {
  (* Worker.id *)
  worker_id : Z;
  (* FaceDetection.getFace: given the inputs of the earlier calls and the
     image, the landmark it resolves to (or undefined), or the error it
     rejects with *)
  detector_getFace :
    list (list Z) -> list Z -> JS.result (option FaceLandmark.detected);
  (* whether the host's stop message is handled while the iteration for
     an index is suspended in its await *)
  stop_during : Z -> bool;
}.

Section WithEnv.

Context (E : env).

(** [await detector.getFace(img)] *)
Definition call_detector (img : list Z) : Worker.M (option FaceLandmark.detected) :=
  fun st => (detector_getFace E (Worker.calls st) img, Worker.add_call img st).

(** [getFace(img)] *)
Definition getFace (img : list Z) : Worker.M (option FaceLandmark.t) :=
  landmark ← call_detector img;
  match landmark with
  | Some landmark => mret (Some (FaceLandmark.new landmark))
  | None => mret None
  end.

(** [getFaceFeatures(items, index)] *)
Definition getFaceFeatures (index : Z) : Worker.M (option FaceFeatures.t) :=
  data ← Worker.gets (fun st => Worker.item_at index (Worker.items (Worker.work st)));
  match data with
  | Some (Worker.Raw bytes) =>
      let buff := Worker.Buffer_from bytes in
      face ← getFace buff;
      res ← match face with
             | Some face =>
                 let res := snd (FaceLandmark.getFeatures face) in
                 Worker.assign_item index (Worker.Features res);;
                 mret (Some res, Worker.Features res)
             | None =>
                 Worker.assign_item index (Worker.Empty JS.JNull);;
                 mret (None, Worker.Empty JS.JNull)
             end;
      Worker.send (Worker.update index (snd res) (worker_id E));;
      mret (fst res)
  | Some (Worker.Features f) => mret (Some f)
  | Some (Worker.Empty _) | None => mret None
  end.

(** [await m] in the iteration for index [current], as in the face-ng
    worker. *)
Definition awaiting {A} (current : Z) (m : Worker.M A) : Worker.M A :=
  fun st =>
    let '(r, st') := m st in
    (r, if stop_during E current then snd (Worker.on_stop st') else st').

(** The loop of [verify], over the values [current] takes. *)
Fixpoint scan (range : list Z) (acc : Worker.locals) : Worker.M Worker.locals :=
  match range with
  | [] => mret acc
  | current :: rest =>
      is_stopped ← Worker.gets Worker.stopped;
      if (is_stopped : bool) then mret acc
      else
        feat ← awaiting current (getFaceFeatures current);
        scan rest match feat with
                  | Some f =>
                      {| Worker.features := Worker.features acc ++ [f];
                         Worker.indices := Worker.indices acc ++ [current];
                         Worker.count := S (Worker.count acc) |}
                  | None => acc
                  end
  end.

(** The statements of [verify] inside [try]. *)
Definition verify_try (start end_ : Z) : Worker.M (option Worker.Matched) :=
  Worker.log_ Worker.LogPreparing;;
  acc ← scan (Worker.range start end_) (Worker.mk_locals [] [] 0);
  is_stopped ← Worker.gets Worker.stopped;
  matched ← (if negb is_stopped && negb (Nat.eqb (length (Worker.features acc)) 0)
             then
               Worker.log_ Worker.LogFindMatch;;
               feature ← Worker.gets
                           (fun st => FaceFeatures.from (Worker.feature (Worker.work st)));
               found ← Worker.lift
                         (FaceFeatures.find feature (map JS.Obj (Worker.features acc))
                            FaceFeatures.default_confidence);
               match fst found with
               | Some match_ =>
                   mret (Some {| Worker.label := Worker.indices acc !! match_;
                                 Worker.confidence :=
                                   (1 - JS.to_number (snd found))%float |})
               | None => mret None
               end
             else mret None);
  Worker.log_ (Worker.LogDone (Worker.count acc));;
  mret matched.

(** [verify(work, start, end)] *)
Definition verify (start end_ : Z) : Worker.M unit :=
  w ← Worker.gets Worker.work;
  Worker.log_ (Worker.LogVerifying (Worker.id w) start end_);;
  matched ← Worker.try_catch (verify_try start end_)
              (fun err => Worker.error_ (Worker.LogErr err);; mret None);
  w' ← Worker.gets Worker.work;
  Worker.send (Worker.done w' matched (worker_id E)).

(** [Worker.on('message', async (data) => ...)] *)
Definition on_message (data : Worker.command) : Worker.M unit :=
  match data with
  | Worker.cmd_do w start end_ =>
      Worker.modify (Worker.set_stopped false);;
      Worker.modify (Worker.set_work w);;
      verify start end_
  | Worker.cmd_stop => Worker.on_stop
  | Worker.cmd_other => mret tt
  end.

(** The face-ng collaborators that behave as those of this worker do: the
    one landmark of [getFace] is the only face of [getFaces]. *)
Definition as_ng : Worker.env :=
  {| Worker.worker_id := worker_id E;
     Worker.detector_getFaces := fun calls img =>
       match detector_getFace E calls img with
       | JS.Ok (Some landmark) =>
           JS.Ok {| Worker.faces := Some [landmark];
                    Worker.shape := FaceLandmark.d_shape landmark |}
       | JS.Ok None => JS.Ok {| Worker.faces := None; Worker.shape := None |}
       | JS.Throw e => JS.Throw e
       end;
     Worker.stop_during := stop_during E |}.

End WithEnv.

End WorkerApi.

(** ** index.js: the payload of a command *)

Module FaceId.

(** A value received as [data.feature] or [data.template]: a string, given
    by its UTF-16 code units, a byte array, or anything else. *)
Inductive value : Type :=
| VString (units : list Z)
| VBytes (bytes : list Z)
| VOther.

(** The loop [for (let i = 0; i < data.length; i++) buff[i] =
    data.charCodeAt(i)] of [normalize], from index [i] on; a store into a
    [Uint8Array] keeps the value modulo 256. *)
Fixpoint fill (units : list Z) (i : nat) (buff : list Z) : list Z :=
  match units with
  | [] => buff
  | c :: rest => fill rest (S i) (<[i := c mod 256]> buff)
  end.

(** [normalize(data)] *)
Definition normalize (data : value) : value :=
  match data with
  | VString units => VBytes (fill units 0 (replicate (length units) 0))
  | _ => data
  end.

End FaceId.

(** ** The specification's notions *)

Module Spec.

(** The representations of the finite numbers: zeros and the numbers
    with a mantissa. *)
Inductive sf_finite : spec_float -> Prop :=
| sf_finite_zero s : sf_finite (S754_zero s)
| sf_finite_fin s m e : sf_finite (S754_finite s m e).

(** Two feature vectors are comparable: identical group keys and
    identical per-group lengths. With pairwise distinct keys on both
    sides, equally many keys and every key of [a] present in [b] with the
    same length is that (lemma [same_shape_iff]). *)
Definition same_shape (a b : FaceFeatures.t) : bool :=
  Nat.eqb (length (FaceFeatures.keys a)) (length (FaceFeatures.keys b))
  && forallb (fun '(k, xs) =>
                match FaceFeatures.get k b with
                | Some ys => Nat.eqb (length xs) (length ys)
                | None => false
                end) a.

(** The Euclidean norm of the per-coordinate differences of two flat
    arrays, [sqrt(Σ (a_i − b_i)^2)]; the sum is accumulated in index
    order. *)
Definition euclidean_norm (xs ys : list JS.number) : JS.number :=
  JS.Math_sqrt
    (fold_left PrimFloat.add
       (zip_with (fun x y => ((x - y) * (x - y))%float) xs ys) 0%float).

(** The arithmetic mean of a sequence, summed in order. *)
Definition mean (l : list JS.number) : JS.number :=
  (fold_left PrimFloat.add l 0 / JS.of_length (length l))%float.

(** The distance of the specification: the mean over the groups of [a]
    of the Euclidean norm of the group's differences. *)
Definition distance (a b : FaceFeatures.t) : JS.number :=
  mean (map (fun '(k, xs) =>
               euclidean_norm xs (default [] (FaceFeatures.get k b))) a).

(** The loop of [verify] as a transition system. A configuration is the
    remaining values of [current], the local variables and the state;
    a step is one iteration that ends normally. *)
Definition config : Type := list Z * Worker.locals * Worker.state.

Inductive step (E : Worker.env) : config -> config -> Prop :=
| step_iteration current rest acc st feature st' :
    Worker.stopped st = false ->
    Worker.awaiting E current (Worker.getFaceFeatures E current) st
      = (JS.Ok feature, st') ->
    step E (current :: rest, acc, st)
           (rest,
            match feature with
            | Some f => {| Worker.features := Worker.features acc ++ [f];
                           Worker.indices := Worker.indices acc ++ [current];
                           Worker.count := S (Worker.count acc) |}
            | None => acc
            end,
            st').

(** The configuration in which the loop of [verify E start end_] starts
    from state [st]. *)
Definition initial (st : Worker.state) (start end_ : Z) : config :=
  (Worker.range start end_,
   Worker.mk_locals [] [] 0,
   Worker.add_log Worker.LogPreparing
     (Worker.add_log (Worker.LogVerifying (Worker.id (Worker.work st)) start end_) st)).

(** The loop, started in [c], arrives at the head of the iteration for
    index [k] in state [st_k] with the local variables [acc]. *)
Definition at_head (E : Worker.env) (c : config) (k : Z)
    (acc : Worker.locals) (st_k : Worker.state) : Prop :=
  exists rest, rtc (step E) c (k :: rest, acc, st_k).

(** Index [k] is visited in state [st_k]: the loop arrives at its
    iteration and does not find the flag raised, so that
    [getFaceFeatures] is invoked for [k]. *)
Definition visited (E : Worker.env) (c : config) (k : Z) (st_k : Worker.state) : Prop :=
  exists acc, at_head E c k acc st_k /\ Worker.stopped st_k = false.

(** What [getFaceFeatures] makes of a detection: the features of the first
    face, if there is one. *)
Definition detected_features (detection : Worker.Detection) : option FaceFeatures.t :=
  match Worker.faces detection with
  | Some (landmark :: _) =>
      Some (snd (FaceLandmark.getFeatures
                   (FaceLandmark.new
                      (Worker.with_shape (Worker.shape detection) landmark))))
  | _ => None
  end.

(** The value written to the slot: the features, or the null sentinel. *)
Definition slot_value (res : option FaceFeatures.t) : Worker.item :=
  match res with
  | Some f => Worker.Features f
  | None => Worker.Empty JS.JNull
  end.

(** The slot is a cache hit: a feature vector, a falsy value, or absent. *)
Definition cache_hit (slot : option Worker.item) : Prop :=
  forall bytes, slot <> Some (Worker.Raw bytes).

(** The value [getFaceFeatures] returns on a cache hit. *)
Definition cached (slot : option Worker.item) : option FaceFeatures.t :=
  match slot with
  | Some (Worker.Features f) => Some f
  | _ => None
  end.

(** [m] is the update message of a visited index: the loop started in
    [c0] visits some index [k] whose slot then holds raw bytes, the
    detector returns for them, and [m] reports the value written to the
    slot. *)
Definition reports (E : Worker.env) (c0 : config) (m : Worker.message) : Prop :=
  exists k st_k bytes detection,
    visited E c0 k st_k
    /\ Worker.item_at k (Worker.items (Worker.work st_k)) = Some (Worker.Raw bytes)
    /\ Worker.detector_getFaces E (Worker.calls st_k) (Worker.Buffer_from bytes)
       = JS.Ok detection
    /\ m = Worker.update k (slot_value (detected_features detection)) (Worker.worker_id E).

(** What the loop started in [c0] has done to the state when it is in
    state [st]: the work's id and probe are as they were, the messages sent
    since are update messages of visited indices, and a slot either is as
    it was or held raw bytes and has been reported. *)
Definition frame (E : Worker.env) (c0 : config) (st : Worker.state) : Prop :=
  Worker.id (Worker.work st) = Worker.id (Worker.work c0.2)
  /\ Worker.feature (Worker.work st) = Worker.feature (Worker.work c0.2)
  /\ exists ups,
       Worker.outbox st = Worker.outbox c0.2 ++ ups
       /\ (forall m, m ∈ ups -> reports E c0 m)
       /\ (forall i : nat,
             Worker.items (Worker.work st) !! i = Worker.items (Worker.work c0.2) !! i
             \/ exists bytes v,
                  Worker.items (Worker.work c0.2) !! i = Some (Worker.Raw bytes)
                  /\ Worker.update (Z.of_nat i) v (Worker.worker_id E) ∈ ups).

Definition is_update (m : Worker.message) : Prop :=
  match m with
  | Worker.update _ _ _ => True
  | Worker.done _ _ _ => False
  end.

(** The feature-bearing markers, in the order of [FaceLandmark.markers]. *)
Definition feature_keys : list string :=
  ["leftEye"; "leftIris"; "lips"; "rightEye"; "rightIris"]%string.

(** A candidate at distance [dj] does not beat what the search holds in
    state [st]: when it is within the threshold, the search holds a
    distance that [dj] is not below. *)
Definition not_better (confidence : JS.number)
    (st : option nat * option JS.number) (dj : JS.number) : Prop :=
  (dj <=? confidence)%float = true ->
  match snd st with
  | Some conf => (dj <? conf)%float = false
  | None => False
  end.

End Spec.

(** ** Concrete inputs *)

Module Examples.

Local Open Scope string_scope.

(** One group, [b] has three more values than [a]. *)
Definition lips_short : FaceFeatures.t := [("lips", [1; 2; 3]%float)].
Definition lips_long : FaceFeatures.t := [("lips", [1; 2; 3; 4; 5; 6]%float)].

(** One group each, under different names. *)
Definition only_lips : FaceFeatures.t := [("lips", [1; 2; 3]%float)].
Definition only_leftEye : FaceFeatures.t := [("leftEye", [1; 2; 3]%float)].

(** Two and one group. *)
Definition eye_and_lips : FaceFeatures.t :=
  [("leftEye", [0; 0; 0]%float); ("lips", [1; 2; 3]%float)].

(** Same shape, different values: the groups are at distance 5 and 0. *)
Definition eye_and_lips' : FaceFeatures.t :=
  [("lips", [1; 2; 3]%float); ("leftEye", [3; 4; 0]%float)].

(** A probe and three candidates at distances 0.5, 0 and 0 from it. *)
Definition probe : FaceFeatures.t := [("lips", [1; 2; 3]%float)].
Definition far : FaceFeatures.t := [("lips", [1; 2; 3.5]%float)].
Definition candidates : list (JS.arg FaceFeatures.t) :=
  [JS.Obj far; JS.Obj probe; JS.Obj probe].

(** A detection all of whose keypoints lie at depth 3. *)
Definition flat_face : FaceLandmark.detected :=
  {| FaceLandmark.d_shape := None;
     FaceLandmark.d_box := FaceLandmark.mk_box 0 0 10 10;
     FaceLandmark.d_keypoints :=
       [ Point.mk_keypoint (Some "lips") 1 2 3;
         Point.mk_keypoint (Some "lips") 4 5 3;
         Point.mk_keypoint (Some "leftEye") 6 7 3 ] |}%float.

(** A worker whose detector finds no face and which handles the host's
    stop message during the iteration for index 0. *)
Definition stopping_env : Worker.env :=
  {| Worker.worker_id := 7;
     Worker.detector_getFaces := fun _ _ => JS.Ok (Worker.mk_detection None None);
     Worker.stop_during := fun current => Z.eqb current 0 |}.

(** A worker whose detector rejects every image. *)
Definition rejecting_env : Worker.env :=
  {| Worker.worker_id := 7;
     Worker.detector_getFaces := fun _ _ => JS.Throw (JS.Rejected "decode");
     Worker.stop_during := fun _ => false |}.

(** A detection with keypoints at several depths, two of them outside the
    feature-bearing groups. *)
Definition deep_face : FaceLandmark.detected :=
  {| FaceLandmark.d_shape := None;
     FaceLandmark.d_box := FaceLandmark.mk_box 0 0 8 8;
     FaceLandmark.d_keypoints :=
       [ Point.mk_keypoint (Some "lips") 1 2 3;
         Point.mk_keypoint (Some "lips") 4 6 5;
         Point.mk_keypoint (Some "faceOval") 4 6 7;
         Point.mk_keypoint None 4 6 7;
         Point.mk_keypoint (Some "leftEye") 6 7 4 ] |}%float.

(** The feature vector of [deep_face]. *)
Definition deep_features : FaceFeatures.t :=
  [ ("leftEye", [0.75; 0.875; 0.25]%float);
    ("lips", [0.125; 0.25; 0; 0.5; 0.75; 0.5]%float) ].

(** A feature vector of the shape of [deep_features]. *)
Definition deep_features' : FaceFeatures.t :=
  [ ("leftEye", [0.5; 0.875; 0.125]%float);
    ("lips", [0.25; 0.25; 0; 0.5; 0.5; 1]%float) ].

(** A worker whose detector finds [deep_face] in the image [[1]] and no
    face elsewhere. *)
Definition detecting_env : Worker.env :=
  {| Worker.worker_id := 7;
     Worker.detector_getFaces := fun _ img =>
       match img with
       | [1] => JS.Ok (Worker.mk_detection (Some [deep_face]) (Some [480; 640; 3]))
       | _ => JS.Ok (Worker.mk_detection None None)
       end;
     Worker.stop_during := fun _ => false |}.

(** Three samples: one without a face, one showing [deep_face] (its bytes
    are reduced modulo 256 on the way to the detector), one already known
    to show no face; the probe is [deep_features]. *)
Definition three_samples : Worker.Work :=
  {| Worker.id := "w4";
     Worker.items := [Worker.Raw [2]; Worker.Raw [257]; Worker.Empty JS.JNull];
     Worker.feature := deep_features |}.

(** A worker state with the given work loaded and nothing done yet. *)
Definition fresh (w : Worker.Work) : Worker.state :=
  {| Worker.work := w; Worker.stopped := false; Worker.calls := [];
     Worker.outbox := []; Worker.log := [] |}.

(** Two raw samples. *)
Definition two_raw : Worker.Work :=
  {| Worker.id := "w1"; Worker.items := [Worker.Raw [1]; Worker.Raw [2]];
     Worker.feature := probe |}.

(** The state of [stopping_env] after the iteration for index 0 of a scan
    of [two_raw] from 0 to 1: slot 0 holds the null sentinel, the update
    for it is sent, and the flag is raised. *)
Definition after_first : Worker.state :=
  (Worker.awaiting stopping_env 0 (Worker.getFaceFeatures stopping_env 0)
     (Spec.initial (fresh two_raw) 0 1).2).2.

(** One raw sample. *)
Definition one_raw : Worker.Work :=
  {| Worker.id := "w2"; Worker.items := [Worker.Raw [1]]; Worker.feature := probe |}.

(** The local variables and the state with which the loop of the scan of
    [three_samples] from 0 to 5 by [detecting_env] ends. *)
Definition scanned : Worker.locals * Worker.state :=
  match Worker.scan detecting_env (Worker.range 0 5) (Worker.mk_locals [] [] 0)
          (Spec.initial (fresh three_samples) 0 5).2 with
  | (JS.Ok acc, st) => (acc, st)
  | (JS.Throw _, st) => (Worker.mk_locals [] [] 0, st)
  end.

(** A cached candidate with two groups, against a probe with one. *)
Definition misshapen : Worker.Work :=
  {| Worker.id := "w3";
     Worker.items := [Worker.Features probe; Worker.Features eye_and_lips];
     Worker.feature := probe |}.

(** Candidates none of which is within the default threshold. *)
Definition strangers : list (JS.arg FaceFeatures.t) :=
  [JS.Obj far; JS.Falsy JS.JNull; JS.Obj far].

(** A detection with the keypoint names of [deep_face] at other places. *)
Definition deep_face' : FaceLandmark.detected :=
  {| FaceLandmark.d_shape := None;
     FaceLandmark.d_box := FaceLandmark.mk_box 1 1 4 4;
     FaceLandmark.d_keypoints :=
       [ Point.mk_keypoint (Some "leftEye") 4 2 1;
         Point.mk_keypoint (Some "lips") 2 4 3;
         Point.mk_keypoint (Some "rightEyebrow") 5 2 2;
         Point.mk_keypoint (Some "lips") 3 4 5 ] |}%float.

(** A detection one of whose keypoints has no usable depth. *)
Definition nan_face : FaceLandmark.detected :=
  {| FaceLandmark.d_shape := None;
     FaceLandmark.d_box := FaceLandmark.mk_box 0 0 8 8;
     FaceLandmark.d_keypoints :=
       [ Point.mk_keypoint (Some "lips") 1 2 3;
         Point.mk_keypoint (Some "lips") 4 6 nan;
         Point.mk_keypoint (Some "leftEye") 6 7 4 ] |}%float.

End Examples.

(** ** Facts about JavaScript numbers *)

Section NumberFacts.

Lemma SFcompare_antisym (a b : spec_float) :
  SFcompare b a = option_map CompOpp (SFcompare a b).
Proof.
  destruct a as [sa|sa| |sa ma ea], b as [sb|sb| |sb mb eb]; simpl;
    try reflexivity;
    try (destruct sa; reflexivity); try (destruct sb; reflexivity);
    try (destruct sa, sb; reflexivity).
  destruct sa, sb; simpl; try reflexivity;
    rewrite (Z.compare_antisym ea eb);
    destruct (ea ?= eb)%Z; simpl; try reflexivity;
    rewrite (Pos.compare_cont_antisym ma mb Eq); simpl;
    try rewrite CompOpp_involutive; reflexivity.
Qed.

(** [a < a] is false for every number, NaN included. *)
Lemma number_lt_irrefl (a : JS.number) : (a <? a)%float = false.
Proof.
  rewrite FloatAxioms.ltb_spec. unfold SFltb.
  destruct (Prim2SF a) as [s|s| |s m e]; simpl; try reflexivity;
    try (destruct s; reflexivity).
  destruct s; rewrite Z.compare_refl, Pos.compare_cont_refl; reflexivity.
Qed.

(** Two numbers that are both [<=] some bound are not NaN, hence
    ordered: if [a] is neither below nor equal to [b], [b] is below [a]. *)
Lemma number_trichotomy (a b t : JS.number) :
  (a <=? t)%float = true -> (b <=? t)%float = true ->
  (a <? b)%float = false -> (a =? b)%float = false ->
  (b <? a)%float = true.
Proof.
  intros Hat Hbt Hlt Heq.
  rewrite FloatAxioms.leb_spec in Hat, Hbt.
  rewrite FloatAxioms.ltb_spec in Hlt. rewrite FloatAxioms.eqb_spec in Heq.
  rewrite FloatAxioms.ltb_spec. unfold SFleb, SFltb, SFeqb in *.
  rewrite (SFcompare_antisym (Prim2SF a) (Prim2SF b)).
  destruct (SFcompare (Prim2SF a) (Prim2SF b)) as [[]|] eqn:Hc;
    simpl; try reflexivity; try discriminate.
  exfalso.
  destruct (Prim2SF a) as [sa|sa| |sa ma ea], (Prim2SF b) as [sb|sb| |sb mb eb];
    simpl in *; try discriminate;
    destruct (Prim2SF t); simpl in *; discriminate.
Qed.

Lemma is_finite_sf (a : JS.number) : is_finite a = true -> Spec.sf_finite (Prim2SF a).
Proof.
  unfold is_finite, is_nan, is_infinity. intros H.
  rewrite !FloatAxioms.eqb_spec, FloatAxioms.abs_spec in H.
  destruct (Prim2SF a) as [s|s| |s m e]; simpl in H; try constructor.
  - exfalso. destruct s; vm_compute in H; discriminate.
  - discriminate.
Qed.

(** [a - a] is [+0] for a finite [a]. *)
Lemma number_sub_diag (a : JS.number) : is_finite a = true -> (a - a)%float = 0%float.
Proof.
  intros H. apply is_finite_sf in H. apply Prim2SF_inj.
  rewrite FloatAxioms.sub_spec. unfold SF64sub.
  destruct H as [s|s m e]; simpl.
  - destruct s; reflexivity.
  - rewrite Z.sub_diag. reflexivity.
Qed.

Lemma number_lt_infinity (a : JS.number) :
  is_finite a = true -> (a <? infinity)%float = true.
Proof.
  intros H. apply is_finite_sf in H. rewrite FloatAxioms.ltb_spec.
  destruct H; reflexivity.
Qed.

Lemma number_gt_neg_infinity (a : JS.number) :
  is_finite a = true -> (neg_infinity <? a)%float = true.
Proof.
  intros H. apply is_finite_sf in H. rewrite FloatAxioms.ltb_spec.
  destruct H; reflexivity.
Qed.

Lemma is_finite_not_nan (a : JS.number) : is_finite a = true -> is_nan a = false.
Proof.
  unfold is_finite. destruct (is_nan a); [discriminate | reflexivity].
Qed.

(** No number is both [-0] and [+0]. *)
Lemma zero_signs_exclusive (a : JS.number) :
  JS.is_neg_zero a && JS.is_pos_zero a = false.
Proof. unfold JS.is_neg_zero, JS.is_pos_zero. destruct (classify a); reflexivity. Qed.

Lemma zero_signs_exclusive' (a : JS.number) :
  JS.is_pos_zero a && JS.is_neg_zero a = false.
Proof. rewrite andb_comm. apply zero_signs_exclusive. Qed.

End NumberFacts.

(** ** The distance engine *)

Section Distance.

Implicit Types (a b this : FaceFeatures.t) (xs ys : list JS.number).

Lemma mapM_Throw {A B} (f : A -> JS.result B) (l : list A) e :
  JS.mapM f l = JS.Throw e -> exists x, x ∈ l /\ f x = JS.Throw e.
Proof.
  induction l as [|x l IH]; simpl; [discriminate|].
  destruct (f x) as [y|e'] eqn:Hx; simpl.
  - destruct (JS.mapM f l) as [ys|e'']; simpl; [discriminate|].
    intros [= ->]. destruct IH as (z & Hz & Hfz); [reflexivity|].
    exists z. split; [by apply list_elem_of_further | done].
  - intros [= ->]. exists x. split; [apply list_elem_of_here | done].
Qed.

Lemma mapM_Ok {A B} (f : A -> JS.result B) (g : A -> B) (l : list A) :
  (forall x, x ∈ l -> f x = JS.Ok (g x)) -> JS.mapM f l = JS.Ok (map g l).
Proof.
  induction l as [|x l IH]; intros H; simpl; [reflexivity|].
  rewrite (H x) by apply list_elem_of_here. simpl.
  rewrite IH; [reflexivity|].
  intros y Hy. apply H. by apply list_elem_of_further.
Qed.

(** One feature of [distance] throws nothing but the TypeError of
    reading an index of [undefined]. *)
Lemma distance_feature_Throw xs other e :
  FaceFeatures.distance_feature xs other = JS.Throw e -> e = JS.TypeError.
Proof.
  unfold FaceFeatures.distance_feature.
  destruct xs as [|x xs], other as [ys|]; simpl; try discriminate.
  by intros [= <-].
Qed.

Lemma sum_squares_zip xs : forall ys (i : nat) acc,
  fold_left (fun s d => (s + d * d)%float)
    (map (fun p => (FaceFeatures.x p - JS.to_number (FaceFeatures.y p))%float)
       (imap (fun k v => FaceFeatures.mk_xy v (ys !! (i + k)%nat)) xs)) acc
  = fold_left PrimFloat.add
      (zip_with (fun x y => ((x - y) * (x - y))%float) xs (drop i ys)) acc
  \/ (length ys < i + length xs)%nat.
Proof.
  induction xs as [|x xs IH]; intros ys i acc; simpl.
  - left. reflexivity.
  - destruct (ys !! (i + 0)%nat) as [y|] eqn:Hy.
    + rewrite Nat.add_0_r in Hy.
      rewrite (drop_S _ _ _ Hy). simpl.
      destruct (IH ys (S i) (acc + (x - y) * (x - y))%float) as [IH'|IH'].
      * left. rewrite <- IH'. f_equal. f_equal.
        apply imap_ext. intros k v _. simpl. do 2 f_equal. lia.
      * right. simpl in IH'. lia.
    + right. apply lookup_ge_None in Hy. lia.
Qed.

(** On arrays of one length a group's value is the Euclidean norm of the
    differences. *)
Lemma distance_feature_same_length xs ys :
  length xs = length ys ->
  FaceFeatures.distance_feature xs (Some ys) = JS.Ok (Spec.euclidean_norm xs ys).
Proof.
  intros Hlen. unfold FaceFeatures.distance_feature, Spec.euclidean_norm.
  destruct xs as [|x xs]; [reflexivity|].
  cbn [mbind JS.result_bind JS.bind]. do 2 f_equal.
  destruct (sum_squares_zip (x :: xs) ys 0 0%float) as [H|H].
  - rewrite drop_0 in H. exact H.
  - simpl in H, Hlen. lia.
Qed.

Lemma get_Some_elem a k xs : FaceFeatures.get k a = Some xs -> (k, xs) ∈ a.
Proof.
  induction a as [|[k' v] a IH]; simpl; [discriminate|].
  destruct (String.eqb_spec k' k) as [->|Hne].
  - intros [= ->]. apply list_elem_of_here.
  - intros H. apply list_elem_of_further. by apply IH.
Qed.

Lemma get_None_keys a k : FaceFeatures.get k a = None <-> k ∉ FaceFeatures.keys a.
Proof.
  induction a as [|[k' v] a IH]; simpl.
  - split; [intros _; apply not_elem_of_nil | done].
  - rewrite not_elem_of_cons. destruct (String.eqb_spec k' k) as [->|Hne].
    + split; [discriminate | intros [? _]; done].
    + rewrite IH. split; [intros ?; split; [congruence | done] | intros [_ ?]; done].
Qed.

Lemma get_Some_keys a k xs : FaceFeatures.get k a = Some xs -> k ∈ FaceFeatures.keys a.
Proof.
  intros H. apply get_Some_elem in H. unfold FaceFeatures.keys.
  apply list_elem_of_fmap. by exists (k, xs).
Qed.

Lemma get_elem_NoDup a k xs :
  NoDup (FaceFeatures.keys a) -> (k, xs) ∈ a -> FaceFeatures.get k a = Some xs.
Proof.
  induction a as [|[k' v] a IH]; simpl; intros Hnd Hin.
  - by apply elem_of_nil in Hin.
  - apply NoDup_cons in Hnd as [Hk' Hnd].
    apply elem_of_cons in Hin as [[= -> ->]|Hin].
    + by rewrite String.eqb_refl.
    + destruct (String.eqb_spec k' k) as [->|Hne]; [|by apply IH].
      exfalso. apply Hk'. unfold FaceFeatures.keys.
      apply list_elem_of_fmap. exists (k, xs). done.
Qed.

(** [Spec.same_shape] on objects (keys pairwise distinct) says that both
    have the same keys with arrays of the same lengths. *)
Lemma same_shape_iff a b :
  NoDup (FaceFeatures.keys a) -> NoDup (FaceFeatures.keys b) ->
  Spec.same_shape a b = true
  <-> forall k, length <$> FaceFeatures.get k a = length <$> FaceFeatures.get k b.
Proof.
  intros Ha Hb. unfold Spec.same_shape.
  rewrite andb_true_iff, Nat.eqb_eq, forallb_forall. split.
  - intros [Hlen Hall] k.
    assert (Hsub : forall k xs, (k, xs) ∈ a ->
              exists ys, FaceFeatures.get k b = Some ys /\ length xs = length ys).
    { intros k' xs Hin. apply list_elem_of_In, Hall in Hin.
      destruct (FaceFeatures.get k' b) as [ys|]; [|discriminate].
      exists ys. split; [done | by apply Nat.eqb_eq]. }
    destruct (FaceFeatures.get k a) as [xs|] eqn:Hka.
    + destruct (Hsub k xs (get_Some_elem _ _ _ Hka)) as (ys & -> & Hl).
      simpl. by rewrite Hl.
    + destruct (FaceFeatures.get k b) as [ys|] eqn:Hkb; [exfalso|done].
      apply get_None_keys in Hka. apply Hka.
      assert (Hperm : FaceFeatures.keys a ≡ₚ FaceFeatures.keys b).
      { apply submseteq_length_Permutation; [|lia].
        apply NoDup_submseteq; [done|].
        intros k' Hk'. apply list_elem_of_fmap in Hk' as ([k'' xs] & -> & Hin).
        destruct (Hsub _ _ Hin) as (ys' & Hys' & _). simpl.
        by eapply get_Some_keys. }
      rewrite Hperm. by eapply get_Some_keys.
  - intros Hall. split.
    + apply Permutation_length, NoDup_Permutation; [done..|].
      intros k. specialize (Hall k).
      destruct (FaceFeatures.get k a) as [xs|] eqn:Hka,
               (FaceFeatures.get k b) as [ys|] eqn:Hkb; try discriminate.
      * split; intros _; by eapply get_Some_keys.
      * apply get_None_keys in Hka, Hkb. split; intros ?; done.
    + intros [k xs] Hin. apply list_elem_of_In in Hin.
      specialize (Hall k). rewrite (get_elem_NoDup _ _ _ Ha Hin) in Hall.
      destruct (FaceFeatures.get k b) as [ys|]; [|discriminate].
      simpl in Hall. apply Nat.eqb_eq. congruence.
Qed.

(** C1, as the code has it: the shape check of [distance] compares the
    number of group keys and nothing else. For all feature vectors [this]
    and [features], [distance] fails with the ShapeMismatch error exactly
    when the two have different numbers of group keys. *)
Theorem distance_ShapeMismatch_iff this features :
  FaceFeatures.distance this (JS.Obj features) = JS.Throw JS.ShapeMismatch
  <-> length (FaceFeatures.keys this) <> length (FaceFeatures.keys features).
Proof.
  unfold FaceFeatures.distance.
  destruct (Nat.eqb_spec (length (FaceFeatures.keys this))
              (length (FaceFeatures.keys features))) as [Heq|Hne]; simpl.
  - split; [|done]. intros H. exfalso.
    destruct (JS.mapM _ this) as [values|e] eqn:Hm; simpl in H; [discriminate|].
    injection H as ->.
    apply mapM_Throw in Hm as ([k xs] & _ & Hx).
    apply distance_feature_Throw in Hx. discriminate.
  - split; done.
Qed.

(** C1, refuted as stated: two vectors with the same group key whose
    arrays have lengths 3 and 6 are compared without an error, the
    result being the number 0; and two vectors with one group each under
    different names fail with a TypeError, not with ShapeMismatch. *)
Lemma distance_shape_mismatch_undetected :
  Spec.same_shape Examples.lips_short Examples.lips_long = false
  /\ FaceFeatures.distance Examples.lips_short (JS.Obj Examples.lips_long)
     = JS.Ok (Some 0%float)
  /\ Spec.same_shape Examples.only_lips Examples.only_leftEye = false
  /\ FaceFeatures.distance Examples.only_lips (JS.Obj Examples.only_leftEye)
     = JS.Throw JS.TypeError.
Proof. repeat split; reflexivity. Qed.

(** C3: for feature vectors [a] and [b] with identical group keys and
    per-group lengths, [distance] returns the arithmetic mean over the
    groups of the Euclidean norm of the differences of the group's
    flattened values. *)
Theorem distance_is_mean_of_norms a b :
  Spec.same_shape a b = true ->
  FaceFeatures.distance a (JS.Obj b) = JS.Ok (Some (Spec.distance a b)).
Proof.
  unfold Spec.same_shape. rewrite andb_true_iff, forallb_forall.
  intros [Hlen Hall]. unfold FaceFeatures.distance. rewrite Hlen. simpl.
  rewrite (mapM_Ok _ (fun '(k, xs) =>
             Spec.euclidean_norm xs (default [] (FaceFeatures.get k b)))).
  - simpl. unfold Spec.distance, Spec.mean. reflexivity.
  - intros [k xs] Hin. apply list_elem_of_In, Hall in Hin.
    destruct (FaceFeatures.get k b) as [ys|]; [|discriminate].
    apply Nat.eqb_eq in Hin. simpl. by apply distance_feature_same_length.
Qed.

Lemma distance_is_mean_of_norms_witness :
  FaceFeatures.distance Examples.eye_and_lips (JS.Obj Examples.eye_and_lips')
  = JS.Ok (Some (Spec.distance Examples.eye_and_lips Examples.eye_and_lips')).
Proof. apply distance_is_mean_of_norms. reflexivity. Defined.

(** C10: [distance] applied to a falsy argument (null, undefined)
    returns undefined, it neither throws nor returns a number; and
    [FaceLandmark.compare] with a falsy argument returns undefined and
    touches neither object. *)
Theorem falsy_argument_gives_undefined this (face : FaceLandmark.t) (v : JS.falsy) :
  FaceFeatures.distance this (JS.Falsy v) = JS.Ok None
  /\ FaceLandmark.compare face (JS.Falsy v) = (face, JS.Falsy v, JS.Ok None).
Proof. split; reflexivity. Qed.

End Distance.

(** ** The best-match search *)

Section Find.

Context (this : FaceFeatures.t) (confidence : JS.number).

Implicit Types (entries : list (nat * JS.arg FaceFeatures.t))
               (st : option nat * option JS.number).

Lemma find_from_app entries1 entries2 st :
  FaceFeatures.find_from this confidence (entries1 ++ entries2) st
  = st' ← FaceFeatures.find_from this confidence entries1 st;
    FaceFeatures.find_from this confidence entries2 st'.
Proof.
  revert st. induction entries1 as [|[idx c] l IH]; intros st; simpl; [done|].
  destruct (FaceFeatures.find_step this confidence st idx c) as [st'|e]; simpl; [|done].
  apply IH.
Qed.

(** The search goes through when every distance is computed, and what
    it keeps satisfies any property [P] that the state it started from
    and every entry it may select satisfy. *)
Lemma find_from_invariant (P : option nat * option JS.number -> Prop) entries :
  forall st,
    P st ->
    (forall idx c, (idx, c) ∈ entries ->
       exists od, FaceFeatures.distance this c = JS.Ok od
         /\ forall st d, P st -> od = Some d -> (d <=? confidence)%float = true ->
              match snd st with
              | None => true
              | Some conf => (d <? conf)%float
              end = true ->
              P (Some idx, Some d)) ->
    exists st', FaceFeatures.find_from this confidence entries st = JS.Ok st' /\ P st'.
Proof.
  induction entries as [|[idx c] l IH]; intros st HP Hall; simpl.
  - by exists st.
  - destruct (Hall idx c) as (od & Hod & Hsel); [apply list_elem_of_here|].
    unfold FaceFeatures.find_step. rewrite Hod. simpl.
    apply IH.
    + destruct od as [d|]; [|done].
      destruct (d <=? confidence)%float eqn:Hle; simpl; [|done].
      destruct (match snd st with Some conf => (d <? conf)%float | None => true end)
        eqn:Hlt; [|done].
      by eapply Hsel.
    + intros idx' c' Hin. apply Hall. by apply list_elem_of_further.
Qed.

(** What a search that returns has kept is the initial state or one of
    the entries, with its distance, which is within the threshold. *)
Lemma find_from_selected entries :
  forall st r,
    FaceFeatures.find_from this confidence entries st = JS.Ok r ->
    r = st
    \/ exists idx c d, r = (Some idx, Some d) /\ (idx, c) ∈ entries
          /\ FaceFeatures.distance this c = JS.Ok (Some d)
          /\ (d <=? confidence)%float = true.
Proof.
  induction entries as [|[idx c] l IH]; intros st r; simpl.
  - intros [= ->]. by left.
  - unfold FaceFeatures.find_step.
    destruct (FaceFeatures.distance this c) as [od|e] eqn:Hod; simpl; [|discriminate].
    intros Hr. apply IH in Hr as [->|(idx' & c' & d & -> & Hin & Hd & Hle)].
    + destruct od as [d|]; [|by left].
      destruct (d <=? confidence)%float eqn:Hle; simpl; [|by left].
      destruct (match snd st with Some conf => (d <? conf)%float | None => true end);
        [|by left].
      right. exists idx, c, d. repeat split; try done. apply list_elem_of_here.
    + right. exists idx', c', d. repeat split; try done.
      by apply list_elem_of_further.
Qed.

Lemma elem_of_entries (cands : list (JS.arg FaceFeatures.t)) idx c :
  (idx, c) ∈ imap pair cands <-> cands !! idx = Some c.
Proof.
  rewrite elem_of_lookup_imap. split.
  - intros (i & x & [= -> ->] & H). done.
  - intros H. by exists idx, c.
Qed.

Implicit Types (cands : list (JS.arg FaceFeatures.t)).

(** C4: [find] returns no candidate when every candidate's distance is
    computed and none is [<=] the threshold; a candidate it returns is
    one of the list, the value returned with it is its distance, and
    that distance is [<=] the threshold; and [find] returns whenever
    every distance is computed. The threshold is any number, the default
    [0.075] of the parameter included. *)
Theorem find_respects_threshold cands :
  ((forall i c, cands !! i = Some c ->
      exists od, FaceFeatures.distance this c = JS.Ok od
        /\ forall d, od = Some d -> (d <=? confidence)%float = false)
   -> FaceFeatures.find this cands confidence = JS.Ok (None, None))
  /\ (forall index conf,
        FaceFeatures.find this cands confidence = JS.Ok (index, conf) ->
        match index, conf with
        | None, None => True
        | Some i, Some d =>
            exists c, cands !! i = Some c
              /\ FaceFeatures.distance this c = JS.Ok (Some d)
              /\ (d <=? confidence)%float = true
        | _, _ => False
        end)
  /\ ((forall i c, cands !! i = Some c ->
         exists od, FaceFeatures.distance this c = JS.Ok od)
      -> exists r, FaceFeatures.find this cands confidence = JS.Ok r).
Proof.
  unfold FaceFeatures.find. repeat split.
  - intros Hall.
    destruct (find_from_invariant (fun st => st = (None, None))
                (imap pair cands) (None, None)) as (st' & Hst' & ->); [done| |done].
    intros idx c Hin. apply elem_of_entries in Hin.
    destruct (Hall idx c Hin) as (od & Hod & Hgt).
    exists od. split; [done|]. intros st d _ Hd Hle. rewrite (Hgt d Hd) in Hle.
    discriminate.
  - intros index conf Hr.
    apply find_from_selected in Hr as [[= -> ->]|(idx & c & d & [= -> ->] & Hin & Hd & Hle)];
      [done|].
    apply elem_of_entries in Hin. by exists c.
  - intros Hall.
    destruct (find_from_invariant (fun _ => True) (imap pair cands) (None, None))
      as (st' & Hst' & _); [done| |by exists st'].
    intros idx c Hin. apply elem_of_entries in Hin.
    destruct (Hall idx c Hin) as (od & Hod). exists od. done.
Qed.

(** C5: when the candidate at index [i] has the minimal distance [d]
    among the candidates within the threshold and no earlier candidate
    has that distance, [find] returns index [i] with [d], however many
    later candidates are at the same distance. *)
Theorem find_first_minimum cands i c d :
  (forall j cj, cands !! j = Some cj ->
     exists od, FaceFeatures.distance this cj = JS.Ok od) ->
  cands !! i = Some c ->
  FaceFeatures.distance this c = JS.Ok (Some d) ->
  (d <=? confidence)%float = true ->
  (forall j cj dj, cands !! j = Some cj ->
     FaceFeatures.distance this cj = JS.Ok (Some dj) ->
     (dj <=? confidence)%float = true -> (dj <? d)%float = false) ->
  (forall j cj dj, (j < i)%nat -> cands !! j = Some cj ->
     FaceFeatures.distance this cj = JS.Ok (Some dj) ->
     (dj =? d)%float = false) ->
  FaceFeatures.find this cands confidence = JS.Ok (Some i, Some d).
Proof.
  intros Hall Hi Hd Hle Hmin Hfirst. unfold FaceFeatures.find.
  rewrite <- (take_drop_middle cands i c Hi) at 1.
  assert (Hlen : length (take i cands) = i).
  { apply length_take_le. apply lookup_lt_Some in Hi. lia. }
  rewrite imap_app, imap_cons, Hlen, Nat.add_0_r, find_from_app.
  (* the candidates before [i] *)
  destruct (find_from_invariant
              (fun st => st = (None, None)
                         \/ exists j dj, st = (Some j, Some dj) /\ (d <? dj)%float = true)
              (imap pair (take i cands)) (None, None)) as (st1 & -> & Hst1).
  { by left. }
  { intros idx cj Hin. apply elem_of_entries in Hin.
    apply lookup_take_Some in Hin as [Hcj Hlt].
    destruct (Hall idx cj Hcj) as (od & Hod). exists od. split; [done|].
    intros st dj _ -> Hdj _. right. exists idx, dj. split; [done|].
    apply (number_trichotomy dj d confidence); eauto. }
  cbn [mbind JS.result_bind JS.bind FaceFeatures.find_from].
  (* the candidate at [i] *)
  assert (Hstep : FaceFeatures.find_step this confidence st1 i c = JS.Ok (Some i, Some d)).
  { unfold FaceFeatures.find_step. rewrite Hd. simpl. rewrite Hle. simpl.
    destruct Hst1 as [->|(j & dj & -> & Hlt)]; simpl; [done|]. by rewrite Hlt. }
  rewrite Hstep. cbn [mbind JS.result_bind JS.bind].
  (* the candidates after [i] *)
  match goal with |- FaceFeatures.find_from _ _ ?entries _ = _ =>
    destruct (find_from_invariant (fun st => st = (Some i, Some d))
                entries (Some i, Some d)) as (st2 & Hst2 & ->); [done| |done]
  end.
  intros idx cj Hin.
  apply elem_of_lookup_imap in Hin as (n & x & [= -> ->] & Hx).
  rewrite lookup_drop in Hx.
  destruct (Hall _ _ Hx) as (od & Hod). exists od. split; [done|].
  intros st dj -> -> Hdj Hlt. simpl in Hlt.
  rewrite (Hmin _ _ _ Hx Hod Hdj) in Hlt. discriminate.
Qed.

End Find.

(** The probe of the examples finds the second of three candidates, at
    distance 0, although the third is at distance 0 as well. *)
Lemma find_first_minimum_witness :
  FaceFeatures.find Examples.probe Examples.candidates FaceFeatures.default_confidence
  = JS.Ok (Some 1%nat, Some 0%float).
Proof.
  apply (find_first_minimum _ _ _ 1%nat (JS.Obj Examples.probe) 0%float).
  - intros [|[|[|j]]] cj; simpl; intros [= <-]; eexists; vm_compute; reflexivity.
  - reflexivity.
  - reflexivity.
  - reflexivity.
  - intros [|[|[|j]]] cj dj; simpl; intros [= <-]; vm_compute;
      intros [= <-]; intros; first [reflexivity | discriminate].
  - intros [|[|j]] cj dj Hlt; try lia; simpl; intros [= <-]; vm_compute;
      intros [= <-]; reflexivity.
Defined.

(** No candidate of [Examples.strangers] is within the default threshold,
    and none is returned. *)
Lemma find_respects_threshold_witness :
  FaceFeatures.find Examples.probe Examples.strangers FaceFeatures.default_confidence
  = JS.Ok (None, None).
Proof.
  apply (proj1 (find_respects_threshold Examples.probe FaceFeatures.default_confidence
                  Examples.strangers)).
  intros [|[|[|j]]] c; simpl; intros [= <-]; eexists; (split; [vm_compute; reflexivity|]);
    intros d; intros [= <-]; reflexivity.
Defined.

(** ** Normalization *)

Section Normalization.

Lemma Math_min_from_const (z0 : JS.number) (l : list JS.number) :
  is_finite z0 = true -> (forall v, v ∈ l -> v = z0) -> JS.Math_min_from z0 l = z0.
Proof.
  intros Hfin. induction l as [|v l IH]; intros Hall; simpl; [done|].
  rewrite (Hall v) by apply list_elem_of_here.
  rewrite (is_finite_not_nan _ Hfin), zero_signs_exclusive, number_lt_irrefl.
  apply IH. intros w Hw. apply Hall. by apply list_elem_of_further.
Qed.

Lemma Math_max_from_const (z0 : JS.number) (l : list JS.number) :
  is_finite z0 = true -> (forall v, v ∈ l -> v = z0) -> JS.Math_max_from z0 l = z0.
Proof.
  intros Hfin. induction l as [|v l IH]; intros Hall; simpl; [done|].
  rewrite (Hall v) by apply list_elem_of_here.
  rewrite (is_finite_not_nan _ Hfin), zero_signs_exclusive', number_lt_irrefl.
  apply IH. intros w Hw. apply Hall. by apply list_elem_of_further.
Qed.

(** The minimum and the maximum of a non-empty array whose elements all
    are the finite number [z0] are [z0]. *)
Lemma Math_min_const (z0 : JS.number) (l : list JS.number) :
  is_finite z0 = true -> l <> [] -> (forall v, v ∈ l -> v = z0) -> JS.Math_min l = z0.
Proof.
  intros Hfin Hne Hall. destruct l as [|v l]; [done|].
  unfold JS.Math_min. simpl. rewrite (Hall v) by apply list_elem_of_here.
  rewrite (is_finite_not_nan _ Hfin), andb_false_r, (number_lt_infinity _ Hfin).
  apply Math_min_from_const; [done|].
  intros w Hw. apply Hall. by apply list_elem_of_further.
Qed.

Lemma Math_max_const (z0 : JS.number) (l : list JS.number) :
  is_finite z0 = true -> l <> [] -> (forall v, v ∈ l -> v = z0) -> JS.Math_max l = z0.
Proof.
  intros Hfin Hne Hall. destruct l as [|v l]; [done|].
  unfold JS.Math_max. simpl. rewrite (Hall v) by apply list_elem_of_here.
  rewrite (is_finite_not_nan _ Hfin), andb_false_r, (number_gt_neg_infinity _ Hfin).
  apply Math_max_from_const; [done|].
  intros w Hw. apply Hall. by apply list_elem_of_further.
Qed.

(** With all six parameters given, the normalized depth of a point is
    [(z - zMin) * zScale]. *)
Lemma normalize_z (a : Point.args) (p : Point.t) xMin yMin zMin xScale yScale zScale :
  a = Point.mk_args (Some xMin) (Some yMin) (Some zMin)
        (Some xScale) (Some yScale) (Some zScale) ->
  Point.z (Point.normalize a p) = ((Point.z p - zMin) * zScale)%float.
Proof. intros ->. reflexivity. Qed.

(** C2, as the code has it: the constructor of [FaceLandmark] has no case
    for a degenerate depth. For a landmark whose keypoints (at least one)
    all have the same finite depth [z0], the z-scale is
    [1 / |z0 - z0| = +Infinity] and the normalized depth of every point is
    [(z0 - z0) * Infinity = NaN]. *)
Theorem flat_depth_normalizes_to_NaN (d : FaceLandmark.detected) (z0 : JS.number) :
  FaceLandmark.d_keypoints d <> [] ->
  (forall k, k ∈ FaceLandmark.d_keypoints d -> Point.kp_z k = z0) ->
  is_finite z0 = true ->
  Point.zScale (FaceLandmark.normalize_args (FaceLandmark.d_box d)
                  (Points.from (FaceLandmark.d_keypoints d))) = Some infinity
  /\ forall p, p ∈ Points.points (FaceLandmark.points (FaceLandmark.new d)) ->
       Point.z p = nan.
Proof.
  intros Hne Hall Hfin.
  set (zs := map (Point.get Point.kz) (Points.points (Points.from (FaceLandmark.d_keypoints d)))).
  assert (Hzs : forall v, v ∈ zs -> v = z0).
  { intros v Hv. unfold zs, Points.from, Points.new in Hv. simpl in Hv.
    apply list_elem_of_fmap in Hv as (p & -> & Hp).
    apply list_elem_of_fmap in Hp as (k & -> & Hk). simpl. by apply Hall. }
  assert (Hzs_ne : zs <> []).
  { unfold zs, Points.from, Points.new. simpl.
    destruct (FaceLandmark.d_keypoints d); [done | discriminate]. }
  assert (Hmin : Points.getMin Point.kz (Points.from (FaceLandmark.d_keypoints d)) = z0).
  { unfold Points.getMin. by apply Math_min_const. }
  assert (Hmax : Points.getMax Point.kz (Points.from (FaceLandmark.d_keypoints d)) = z0).
  { unfold Points.getMax. by apply Math_max_const. }
  assert (Hscale : Point.zScale (FaceLandmark.normalize_args (FaceLandmark.d_box d)
                     (Points.from (FaceLandmark.d_keypoints d))) = Some infinity).
  { unfold FaceLandmark.normalize_args. cbn [Point.zScale].
    rewrite Hmin, Hmax, (number_sub_diag _ Hfin). reflexivity. }
  split; [exact Hscale|].
  intros p Hp. unfold FaceLandmark.new in Hp. cbn [FaceLandmark.points] in Hp.
  unfold Points.normalize in Hp. cbn [Points.points] in Hp.
  apply list_elem_of_fmap in Hp as (p0 & -> & Hp0).
  unfold Points.from, Points.new in Hp0. cbn [Points.points] in Hp0.
  apply list_elem_of_fmap in Hp0 as (k & -> & Hk).
  erewrite normalize_z; [|unfold FaceLandmark.normalize_args; reflexivity].
  fold (Points.from (FaceLandmark.d_keypoints d)).
  rewrite Hmin, Hmax. simpl. rewrite (Hall k Hk), (number_sub_diag _ Hfin).
  reflexivity.
Qed.

Lemma flat_depth_normalizes_to_NaN_witness :
  Point.zScale (FaceLandmark.normalize_args (FaceLandmark.d_box Examples.flat_face)
                  (Points.from (FaceLandmark.d_keypoints Examples.flat_face)))
    = Some infinity
  /\ forall p, p ∈ Points.points (FaceLandmark.points (FaceLandmark.new Examples.flat_face)) ->
       Point.z p = nan.
Proof.
  apply (flat_depth_normalizes_to_NaN Examples.flat_face 3%float).
  - discriminate.
  - intros k Hk. simpl in Hk.
    repeat (apply elem_of_cons in Hk as [->|Hk]; [reflexivity|]).
    by apply elem_of_nil in Hk.
  - reflexivity.
Defined.

(** C2, refuted as stated: the three keypoints of [Examples.flat_face]
    share the depth 3 ([zMax = zMin]); the z-scale the constructor passes on
    is +Infinity, not 1, and the normalized depths are NaN. *)
Lemma flat_depth_is_not_neutral :
  Points.getMax Point.kz (Points.from (FaceLandmark.d_keypoints Examples.flat_face))
    = Points.getMin Point.kz (Points.from (FaceLandmark.d_keypoints Examples.flat_face))
  /\ Point.zScale (FaceLandmark.normalize_args (FaceLandmark.d_box Examples.flat_face)
                     (Points.from (FaceLandmark.d_keypoints Examples.flat_face)))
       = Some infinity
  /\ map Point.z (Points.points (FaceLandmark.points (FaceLandmark.new Examples.flat_face)))
       = [nan; nan; nan]
  /\ is_nan nan = true.
Proof. repeat split; vm_compute; reflexivity. Qed.

End Normalization.

(** ** The partition scanner *)

Section Scanner.

Context (E : Worker.env).

Implicit Types (st : Worker.state) (acc : Worker.locals) (c : Spec.config).

(** Unfolds the sequencing of the worker's computations. *)
Ltac run :=
  unfold mbind, mret, Worker.worker_bind, Worker.worker_ret,
    Worker.bind, Worker.ret, Worker.gets, Worker.modify, Worker.lift,
    Worker.send, Worker.log_, Worker.error_, Worker.assign_item,
    Worker.try_catch in *.

(** [getFaceFeatures] case by case. *)
Lemma getFaceFeatures_eq index st :
  Worker.getFaceFeatures E index st =
  match Worker.item_at index (Worker.items (Worker.work st)) with
  | Some (Worker.Raw bytes) =>
      let buff := Worker.Buffer_from bytes in
      match Worker.detector_getFaces E (Worker.calls st) buff with
      | JS.Ok detection =>
          let res := Spec.detected_features detection in
          (JS.Ok res,
           Worker.add_message
             (Worker.update index (Spec.slot_value res) (Worker.worker_id E))
             (Worker.set_items
                (<[Z.to_nat index := Spec.slot_value res]>
                   (Worker.items (Worker.work st)))
                (Worker.add_call buff st)))
      | JS.Throw e => (JS.Throw e, Worker.add_call buff st)
      end
  | slot => (JS.Ok (Spec.cached slot), st)
  end.
Proof.
  unfold Worker.getFaceFeatures. run.
  destruct (Worker.item_at index (Worker.items (Worker.work st))) as [[bytes|f|v]|];
    try reflexivity.
  unfold Worker.getFaces, Worker.call_detector. run.
  destruct (Worker.detector_getFaces E (Worker.calls st) (Worker.Buffer_from bytes))
    as [detection|e]; [|reflexivity].
  unfold Spec.detected_features.
  destruct (Worker.faces detection) as [[|landmark fs]|]; reflexivity.
Qed.

Lemma scan_cons current rest acc st :
  Worker.scan E (current :: rest) acc st =
  if Worker.stopped st then (JS.Ok acc, st)
  else
    match Worker.awaiting E current (Worker.getFaceFeatures E current) st with
    | (JS.Ok feature, st') =>
        Worker.scan E rest
          match feature with
          | Some f => {| Worker.features := Worker.features acc ++ [f];
                         Worker.indices := Worker.indices acc ++ [current];
                         Worker.count := S (Worker.count acc) |}
          | None => acc
          end st'
    | (JS.Throw e, st') => (JS.Throw e, st')
    end.
Proof.
  cbn [Worker.scan]. run.
  destruct (Worker.stopped st); [reflexivity|].
  destruct (Worker.awaiting E current (Worker.getFaceFeatures E current) st)
    as [[feature|e] st']; reflexivity.
Qed.

(** The loop follows the transition system. *)
Lemma scan_step c c' :
  Spec.step E c c' ->
  Worker.scan E c.1.1 c.1.2 c.2 = Worker.scan E c'.1.1 c'.1.2 c'.2.
Proof.
  intros [current rest acc st feature st' Hrun Hiter]. cbn [fst snd].
  rewrite scan_cons, Hrun, Hiter. reflexivity.
Qed.

Lemma scan_rtc c c' :
  rtc (Spec.step E) c c' ->
  Worker.scan E c.1.1 c.1.2 c.2 = Worker.scan E c'.1.1 c'.1.2 c'.2.
Proof.
  induction 1 as [|c1 c2 c3 H12 _ IH]; [reflexivity|].
  rewrite <- IH. by apply scan_step.
Qed.

(** What one iteration does to the state: nothing on a cache hit; a
    detector call, the slot's rewrite and one update message when the slot
    holds raw bytes and the detector returns; a detector call alone when
    the detector throws. *)
Lemma iteration_effect current st r st' :
  Worker.awaiting E current (Worker.getFaceFeatures E current) st = (r, st') ->
  let slot := Worker.item_at current (Worker.items (Worker.work st)) in
  Worker.id (Worker.work st') = Worker.id (Worker.work st)
  /\ Worker.feature (Worker.work st') = Worker.feature (Worker.work st)
  /\ ((Spec.cache_hit slot /\ r = JS.Ok (Spec.cached slot)
       /\ Worker.items (Worker.work st') = Worker.items (Worker.work st)
       /\ Worker.calls st' = Worker.calls st
       /\ Worker.outbox st' = Worker.outbox st)
      \/ (exists bytes detection,
            slot = Some (Worker.Raw bytes)
            /\ Worker.detector_getFaces E (Worker.calls st) (Worker.Buffer_from bytes)
               = JS.Ok detection
            /\ r = JS.Ok (Spec.detected_features detection)
            /\ Worker.items (Worker.work st')
               = <[Z.to_nat current := Spec.slot_value (Spec.detected_features detection)]>
                   (Worker.items (Worker.work st))
            /\ Worker.calls st' = Worker.calls st ++ [Worker.Buffer_from bytes]
            /\ Worker.outbox st'
               = Worker.outbox st
                 ++ [Worker.update current
                       (Spec.slot_value (Spec.detected_features detection))
                       (Worker.worker_id E)])
      \/ (exists bytes e,
            slot = Some (Worker.Raw bytes)
            /\ Worker.detector_getFaces E (Worker.calls st) (Worker.Buffer_from bytes)
               = JS.Throw e
            /\ r = JS.Throw e
            /\ Worker.items (Worker.work st') = Worker.items (Worker.work st)
            /\ Worker.calls st' = Worker.calls st ++ [Worker.Buffer_from bytes]
            /\ Worker.outbox st' = Worker.outbox st)).
Proof.
  unfold Worker.awaiting. rewrite getFaceFeatures_eq.
  destruct (Worker.item_at current (Worker.items (Worker.work st)))
    as [[bytes|f|v]|] eqn:Hslot; cbn zeta.
  - destruct (Worker.detector_getFaces E (Worker.calls st) (Worker.Buffer_from bytes))
      as [detection|e] eqn:Hdet; intros [= <- <-].
    + split; [|split]; [by destruct (Worker.stop_during E current)..|].
      right; left. exists bytes, detection.
      repeat split; by destruct (Worker.stop_during E current).
    + split; [|split]; [by destruct (Worker.stop_during E current)..|].
      right; right. exists bytes, e.
      repeat split; by destruct (Worker.stop_during E current).
  - intros [= <- <-]. split; [|split]; [by destruct (Worker.stop_during E current)..|].
    left. repeat split; by destruct (Worker.stop_during E current).
  - intros [= <- <-]. split; [|split]; [by destruct (Worker.stop_during E current)..|].
    left. repeat split; by destruct (Worker.stop_during E current).
  - intros [= <- <-]. split; [|split]; [by destruct (Worker.stop_during E current)..|].
    left. repeat split; by destruct (Worker.stop_during E current).
Qed.

Lemma step_det c c1 c2 : Spec.step E c c1 -> Spec.step E c c2 -> c1 = c2.
Proof.
  intros H1 H2. inversion H1 as [current rest acc st feature st' Hrun Hiter]; subst.
  inversion H2 as [? ? ? ? feature2 st2 _ Hiter2]; subst.
  rewrite Hiter in Hiter2. by injection Hiter2 as <- <-.
Qed.

(** Of two runs from one configuration, the one that ends where no step
    is possible passes through wherever the other one arrives. *)
Lemma rtc_halted c0 c c' :
  rtc (Spec.step E) c0 c -> rtc (Spec.step E) c0 c' -> nf (Spec.step E) c' ->
  rtc (Spec.step E) c c'.
Proof.
  intros Hc. revert c'. induction Hc as [c|c0 c1 c H01 _ IH]; intros c' Hc' Hnf; [done|].
  apply rtc_inv in Hc' as [<-|(c1' & H01' & Hc')].
  - exfalso. apply Hnf. by exists c1.
  - apply IH; [|done]. by rewrite (step_det _ _ _ H01 H01').
Qed.

(** The loop runs the transition system until the range is exhausted, the
    flag is found raised, or the iteration throws. *)
Lemma scan_run range : forall acc st,
  exists rest acc' st',
    rtc (Spec.step E) (range, acc, st) (rest, acc', st')
    /\ ((rest = [] /\ Worker.scan E range acc st = (JS.Ok acc', st'))
        \/ (exists k rest', rest = k :: rest' /\ Worker.stopped st' = true
              /\ Worker.scan E range acc st = (JS.Ok acc', st'))
        \/ (exists k rest' e st'', rest = k :: rest' /\ Worker.stopped st' = false
              /\ Worker.awaiting E k (Worker.getFaceFeatures E k) st' = (JS.Throw e, st'')
              /\ Worker.scan E range acc st = (JS.Throw e, st''))).
Proof.
  induction range as [|current rest IH]; intros acc st.
  - exists [], acc, st. split; [done|]. by left.
  - rewrite scan_cons. destruct (Worker.stopped st) eqn:Hrun.
    + exists (current :: rest), acc, st. split; [done|]. right; left. by exists current, rest.
    + destruct (Worker.awaiting E current (Worker.getFaceFeatures E current) st)
        as [[feature|e] st1] eqn:Hiter.
      * pose proof (Spec.step_iteration E current rest acc st feature st1 Hrun Hiter) as Hstep.
        match type of Hstep with Spec.step _ _ (_, ?a, _) =>
          destruct (IH a st1) as (rest' & acc' & st' & Hrtc & Hend) end.
        exists rest', acc', st'. split; [by eapply rtc_l|done].
      * exists (current :: rest), acc, st. split; [done|]. right; right.
        by exists current, rest, e, st1.
Qed.

Lemma item_at_Some index (l : list Worker.item) x :
  Worker.item_at index l = Some x -> 0 <= index /\ l !! Z.to_nat index = Some x.
Proof.
  unfold Worker.item_at. destruct (Z.ltb_spec index 0); [discriminate|]. done.
Qed.

Lemma frame_refl c0 : Spec.frame E c0 c0.2.
Proof.
  split; [done|]. split; [done|]. exists []. split; [by rewrite app_nil_r|].
  split; [|by left]. intros m Hm. by apply elem_of_nil in Hm.
Qed.

(** The frame is kept by every iteration the loop goes through. *)
Lemma reach_frame c0 c : rtc (Spec.step E) c0 c -> Spec.frame E c0 c.2.
Proof.
  revert c. apply rtc_ind_r; [apply frame_refl|].
  intros c c' Hreach Hstep (Hid & Hfeat & ups & Hout & Hups & Hitems).
  destruct Hstep as [current rest acc st feature st' Hrun Hiter]. cbn [snd] in *.
  assert (Hvis : Spec.visited E c0 current st).
  { exists acc. split; [by exists rest | done]. }
  destruct (iteration_effect _ _ _ _ Hiter) as (Hid' & Hfeat' & Heff).
  split; [congruence|]. split; [congruence|].
  destruct Heff as [(_ & _ & Hit & _ & Hout')
                   |[(bytes & detection & Hslot & Hdet & _ & Hit & _ & Hout')
                    |(bytes & e & _ & _ & [=] & _)]].
  - exists ups. rewrite Hout', Hit. done.
  - exists (ups ++ [Worker.update current
                      (Spec.slot_value (Spec.detected_features detection))
                      (Worker.worker_id E)]).
    split; [by rewrite Hout', Hout, app_assoc|]. split.
    + intros m [Hm| ->%list_elem_of_singleton]%elem_of_app; [by apply Hups|].
      by exists current, st, bytes, detection.
    + intros i. apply item_at_Some in Hslot as [Hpos Hslot]. rewrite Hit.
      destruct (Nat.eq_dec i (Z.to_nat current)) as [->|Hne].
      * right. destruct (Hitems (Z.to_nat current)) as [Heq|(bytes' & v & Hraw & Hin)].
        -- exists bytes, (Spec.slot_value (Spec.detected_features detection)).
           split; [congruence|]. rewrite Z2Nat.id by done.
           apply elem_of_app. right. apply list_elem_of_here.
        -- exists bytes', v. split; [done|]. apply elem_of_app. by left.
      * rewrite list_lookup_insert_ne by done.
        destruct (Hitems i) as [Heq|(bytes' & v & Hraw & Hin)]; [by left|].
        right. exists bytes', v. split; [done|]. apply elem_of_app. by left.
Qed.

(** A configuration in which the loop ends admits no step. *)
Lemma halted_nf rest acc st :
  rest = []
  \/ (exists k rest', rest = k :: rest' /\ Worker.stopped st = true)
  \/ (exists k rest' e st', rest = k :: rest' /\
        Worker.awaiting E k (Worker.getFaceFeatures E k) st = (JS.Throw e, st')) ->
  nf (Spec.step E) (rest, acc, st).
Proof.
  intros Hend [c' Hstep].
  inversion Hstep as [current rest0 acc0 st0 feature st1 Hrun Hiter]; subst.
  destruct Hend as [[=]|[(k & rest' & [= -> ->] & Hstop)
                         |(k & rest' & e & st' & [= -> ->] & Hthrow)]]; congruence.
Qed.

(** The frame holds for the state in which the loop ends, and every
    update message of a visited index has been sent by then. *)
Lemma scan_frame range acc st r st' :
  Worker.scan E range acc st = (r, st') ->
  Spec.frame E (range, acc, st) st'
  /\ forall m, Spec.reports E (range, acc, st) m ->
       exists ups1 ups2, Worker.outbox st' = Worker.outbox st ++ ups1 ++ m :: ups2.
Proof.
  intros Hscan.
  destruct (scan_run range acc st) as (rest & acc' & stf & Hrtc & Hend).
  pose proof (reach_frame _ _ Hrtc) as Hframe. cbn [snd] in Hframe.
  assert (Hsame : Worker.work st' = Worker.work stf
                  /\ Worker.outbox st' = Worker.outbox stf
                  /\ nf (Spec.step E) (rest, acc', stf)).
  { destruct Hend as [(-> & Hs)|[(k & rest' & -> & Hstop & Hs)
                                |(k & rest' & e & st'' & -> & Hrun & Hthrow & Hs)]].
    - rewrite Hs in Hscan. injection Hscan as <- <-.
      repeat split. apply halted_nf. by left.
    - rewrite Hs in Hscan. injection Hscan as <- <-.
      repeat split. apply halted_nf. right; left. by exists k, rest'.
    - rewrite Hs in Hscan. injection Hscan as <- <-.
      destruct (iteration_effect _ _ _ _ Hthrow) as (Hid & Hfeat & Heff).
      destruct Heff as [(_ & [=] & _)|[(? & ? & _ & _ & [=] & _)
                                      |(bytes & e' & _ & _ & _ & Hit & _ & Hout)]].
      split; [|split; [done|]].
      + destruct (Worker.work st''), (Worker.work stf). simpl in *. congruence.
      + apply halted_nf. right; right. by exists k, rest', e, st''. }
  destruct Hsame as (Hwork & Hout & Hnf). split.
  - unfold Spec.frame. rewrite Hwork, Hout. exact Hframe.
  - intros m (k & st_k & bytes & detection & (acc_k & (rest_k & Hk) & Hrun) & Hslot & Hdet & ->).
    destruct (Worker.awaiting E k (Worker.getFaceFeatures E k) st_k) as [r1 st1] eqn:Hiter.
    destruct (iteration_effect _ _ _ _ Hiter) as (_ & _ & Heff).
    destruct Heff as [(Hhit & _)|[(bytes' & detection' & Hslot' & Hdet' & -> & _ & _ & Hout1)
                                 |(bytes' & e & Hslot' & Hdet' & _)]].
    + exfalso. by eapply Hhit.
    + rewrite Hslot in Hslot'. injection Hslot' as <-.
      rewrite Hdet in Hdet'. injection Hdet' as <-.
      pose proof (Spec.step_iteration E k rest_k acc_k st_k _ st1 Hrun Hiter) as Hstep.
      pose proof (rtc_halted _ _ _ (rtc_r _ _ _ Hk Hstep) Hrtc Hnf) as Hrest.
      destruct (reach_frame _ _ Hk) as (_ & _ & ups1 & Hout_k & _).
      destruct (reach_frame _ _ Hrest) as (_ & _ & ups2 & Hout_f & _).
      cbn [snd] in *. exists ups1, ups2.
      rewrite Hout, Hout_f, Hout1, Hout_k. by rewrite <- !app_assoc.
    + rewrite Hslot in Hslot'. injection Hslot' as <-. congruence.
Qed.

Lemma reach_suffix c0 c :
  rtc (Spec.step E) c0 c -> exists pre, c0.1.1 = pre ++ c.1.1.
Proof.
  revert c. apply rtc_ind_r; [by exists []|].
  intros c c' _ Hstep [pre Hpre].
  destruct Hstep as [current rest acc st feature st' _ _]. cbn [fst] in *.
  exists (pre ++ [current]). by rewrite <- app_assoc.
Qed.

Lemma visited_in_range st start end_ k st_k :
  Spec.visited E (Spec.initial st start end_) k st_k -> start <= k <= end_.
Proof.
  intros (acc & (rest & Hrtc) & _).
  apply reach_suffix in Hrtc as [pre Hpre]. cbn [fst Spec.initial] in Hpre.
  assert (Hin : k ∈ Worker.range start end_).
  { rewrite Hpre. apply elem_of_app. right. apply list_elem_of_here. }
  unfold Worker.range in Hin. apply elem_of_seqZ in Hin. lia.
Qed.

Lemma verify_try_eq start end_ st :
  Worker.verify_try E start end_ st =
  match Worker.scan E (Worker.range start end_) (Worker.mk_locals [] [] 0)
          (Worker.add_log Worker.LogPreparing st) with
  | (JS.Throw e, st1) => (JS.Throw e, st1)
  | (JS.Ok acc, st1) =>
      if negb (Worker.stopped st1) && negb (Nat.eqb (length (Worker.features acc)) 0)
      then
        match FaceFeatures.find (FaceFeatures.from (Worker.feature (Worker.work st1)))
                (map JS.Obj (Worker.features acc)) FaceFeatures.default_confidence with
        | JS.Ok found =>
            (JS.Ok match found.1 with
                   | Some match_ =>
                       Some {| Worker.label := Worker.indices acc !! match_;
                               Worker.confidence := (1 - JS.to_number found.2)%float |}
                   | None => None
                   end,
             Worker.add_log (Worker.LogDone (Worker.count acc))
               (Worker.add_log Worker.LogFindMatch st1))
        | JS.Throw e => (JS.Throw e, Worker.add_log Worker.LogFindMatch st1)
        end
      else (JS.Ok None, Worker.add_log (Worker.LogDone (Worker.count acc)) st1)
  end.
Proof.
  unfold Worker.verify_try. run. run. cbv beta iota.
  destruct (Worker.scan E _ _ _) as [[acc|e] st1]; [|reflexivity].
  destruct (negb (Worker.stopped st1) && negb (Nat.eqb (length (Worker.features acc)) 0));
    [|reflexivity].
  cbn [Worker.work Worker.add_log].
  destruct (FaceFeatures.find _ _ _) as [[[match_|] conf]|e]; reflexivity.
Qed.

Lemma verify_eq start end_ st :
  Worker.verify E start end_ st =
  match Worker.verify_try E start end_
          (Worker.add_log (Worker.LogVerifying (Worker.id (Worker.work st)) start end_) st)
  with
  | (JS.Ok matched, st1) =>
      (JS.Ok tt,
       Worker.add_message (Worker.done (Worker.work st1) matched (Worker.worker_id E)) st1)
  | (JS.Throw e, st1) =>
      (JS.Ok tt,
       Worker.add_message (Worker.done (Worker.work st1) None (Worker.worker_id E))
         (Worker.add_log (Worker.LogErr e) st1))
  end.
Proof.
  unfold Worker.verify. run. run. cbv beta iota.
  destruct (Worker.verify_try E start end_ _) as [[matched|e] st1]; reflexivity.
Qed.

(** The statements of [verify] after the loop send nothing and write no
    slot: the state at the end of the [try] block has the work and the
    outbox the loop left. *)
Lemma verify_try_scan start end_ st r st1 :
  Worker.verify_try E start end_
    (Worker.add_log (Worker.LogVerifying (Worker.id (Worker.work st)) start end_) st)
    = (r, st1) ->
  exists r' st2,
    Worker.scan E (Spec.initial st start end_).1.1 (Spec.initial st start end_).1.2
      (Spec.initial st start end_).2 = (r', st2)
    /\ Worker.work st1 = Worker.work st2
    /\ Worker.outbox st1 = Worker.outbox st2
    /\ Worker.calls st1 = Worker.calls st2.
Proof.
  rewrite verify_try_eq. cbn [Spec.initial fst snd].
  destruct (Worker.scan E _ _ _) as [[acc|e] st2].
  - destruct (negb (Worker.stopped st2) && _).
    + destruct (FaceFeatures.find _ _ _) as [found|e]; intros [= <- <-];
        eexists _, st2; done.
    + intros [= <- <-]. eexists _, st2; done.
  - intros [= <- <-]. eexists _, st2; done.
Qed.

(** What [verify] leaves behind, in terms of the loop. *)
Lemma verify_frame start end_ st :
  exists st' matched ups,
    Worker.verify E start end_ st = (JS.Ok tt, st')
    /\ Worker.outbox st'
       = Worker.outbox st ++ ups ++ [Worker.done (Worker.work st') matched (Worker.worker_id E)]
    /\ (Worker.id (Worker.work st') = Worker.id (Worker.work st)
        /\ Worker.feature (Worker.work st') = Worker.feature (Worker.work st))
    /\ (forall m, m ∈ ups <-> Spec.reports E (Spec.initial st start end_) m)
    /\ (forall i : nat,
          Worker.items (Worker.work st') !! i = Worker.items (Worker.work st) !! i
          \/ exists bytes v,
               Worker.items (Worker.work st) !! i = Some (Worker.Raw bytes)
               /\ Worker.update (Z.of_nat i) v (Worker.worker_id E) ∈ ups)
    /\ (forall e st1,
          Worker.verify_try E start end_
            (Worker.add_log (Worker.LogVerifying (Worker.id (Worker.work st)) start end_) st)
            = (JS.Throw e, st1) ->
          matched = None /\ Worker.log st' = Worker.log st1 ++ [Worker.LogErr e]).
Proof.
  rewrite verify_eq.
  destruct (Worker.verify_try E start end_ _) as [r st1] eqn:Htry.
  destruct (verify_try_scan _ _ _ _ _ Htry) as (r' & st2 & Hscan & Hwork & Hout & _).
  destruct (scan_frame _ _ _ _ _ Hscan) as [Hframe Hall].
  pose proof Hframe as (Hid & Hfeat & ups & Hups & Hrep & Hitems).
  cbn [Spec.initial fst snd Worker.add_log Worker.outbox Worker.work] in *.
  assert (Hiff : forall m, m ∈ ups <-> Spec.reports E (Spec.initial st start end_) m).
  { intros m. split; [apply Hrep|]. intros Hm.
    destruct (Hall m Hm) as (ups1 & ups2 & Hout2). rewrite Hups in Hout2.
    apply app_inv_head in Hout2 as ->. apply elem_of_app. right. apply list_elem_of_here. }
  destruct r as [matched|e].
  - eexists _, matched, ups. split; [reflexivity|].
    cbn [Worker.add_message Worker.outbox Worker.work].
    split; [by rewrite Hout, Hups, app_assoc|]. split; [by rewrite Hwork|].
    split; [done|]. split; [by rewrite Hwork|]. intros e st1' [=].
  - eexists _, None, ups. split; [reflexivity|].
    cbn [Worker.add_message Worker.add_log Worker.outbox Worker.work Worker.log].
    split; [by rewrite Hout, Hups, app_assoc|]. split; [by rewrite Hwork|].
    split; [done|]. split; [by rewrite Hwork|]. by intros e' st1' [= <- <-].
Qed.

(** C6: when the loop of a scan arrives at the iteration for an index [k]
    and finds the flag raised, [verify] ends with the state of that moment:
    no slot is written and the detector is not called any more (what was
    cached for earlier indices stays), and the one message still sent is
    the done event with [matched] null. *)
Theorem cancelled_scan_stops start end_ st k acc st_k :
  Spec.at_head E (Spec.initial st start end_) k acc st_k ->
  Worker.stopped st_k = true ->
  exists st',
    Worker.verify E start end_ st = (JS.Ok tt, st')
    /\ Worker.work st' = Worker.work st_k
    /\ Worker.calls st' = Worker.calls st_k
    /\ Worker.outbox st'
       = Worker.outbox st_k ++ [Worker.done (Worker.work st_k) None (Worker.worker_id E)].
Proof.
  intros [rest Hrtc] Hstop.
  apply scan_rtc in Hrtc. cbn [Spec.initial fst snd] in Hrtc.
  rewrite verify_eq, verify_try_eq, Hrtc, scan_cons, Hstop.
  cbv beta iota. rewrite Hstop. cbn [negb andb].
  eexists. split; [reflexivity|]. done.
Qed.

(** C7: [verify] returns normally from every state, whatever the detector
    and the best-match search throw; between the messages it found and the
    done event, which is the last message, it sends update messages only;
    when the [try] block throws, the error is logged and the done event
    carries [matched] null; and the message handler returns normally for
    every command, so that no exception reaches the host. *)
Theorem verify_contains_errors start end_ st :
  (exists st' matched ups,
     Worker.verify E start end_ st = (JS.Ok tt, st')
     /\ Worker.outbox st'
        = Worker.outbox st ++ ups
          ++ [Worker.done (Worker.work st') matched (Worker.worker_id E)]
     /\ Forall Spec.is_update ups
     /\ (forall e st1,
           Worker.verify_try E start end_
             (Worker.add_log (Worker.LogVerifying (Worker.id (Worker.work st)) start end_) st)
             = (JS.Throw e, st1) ->
           matched = None /\ Worker.log st' = Worker.log st1 ++ [Worker.LogErr e]))
  /\ forall data, exists st', Worker.on_message E data st = (JS.Ok tt, st').
Proof.
  split.
  - destruct (verify_frame start end_ st)
      as (st' & matched & ups & Hv & Hout & _ & Hiff & _ & Herr).
    exists st', matched, ups. split; [done|]. split; [done|]. split; [|done].
    apply Forall_forall. intros m Hm.
    apply Hiff in Hm as (k & st_k & bytes & det & _ & _ & _ & ->). exact I.
  - intros [w start' end'| |]; [|by eexists..].
    destruct (verify_frame start' end' (Worker.set_work w (Worker.set_stopped false st)))
      as (st' & _ & _ & Hv & _).
    exists st'. rewrite <- Hv. reflexivity.
Qed.

(** C8: when [verify] has sent its done event the probe [work.feature] is
    what it was, and a slot of [work.items] that is not what it was has an
    index in [[start, end]], held raw image bytes, and was visited by the
    loop. *)
Theorem verify_writes_visited_raw_slots start end_ st :
  let st' := (Worker.verify E start end_ st).2 in
  Worker.feature (Worker.work st') = Worker.feature (Worker.work st)
  /\ Worker.id (Worker.work st') = Worker.id (Worker.work st)
  /\ forall i : nat,
       Worker.items (Worker.work st') !! i <> Worker.items (Worker.work st) !! i ->
       start <= Z.of_nat i <= end_
       /\ (exists bytes, Worker.items (Worker.work st) !! i = Some (Worker.Raw bytes))
       /\ exists st_i, Spec.visited E (Spec.initial st start end_) (Z.of_nat i) st_i.
Proof.
  destruct (verify_frame start end_ st)
    as (st' & matched & ups & Hv & _ & (Hid & Hfeat) & Hiff & Hitems & _).
  rewrite Hv. cbn [snd].
  split; [done|]. split; [done|].
  intros i Hne. destruct (Hitems i) as [Heq|(bytes & v & Hraw & Hin)]; [done|].
  apply Hiff in Hin as (k & st_k & bytes' & det & Hvis & _ & _ & [= Hk _]).
  rewrite <- Hk in Hvis. split; [by eapply visited_in_range|].
  split; [by exists bytes | by exists st_k].
Qed.

(** C9, as the code has it: on a slot that is a cache hit (a feature
    vector, the null sentinel or another falsy value, or no slot at all)
    [getFaceFeatures] leaves the state as it is, so it calls no detector
    and sends no message; and the update messages of a scan are exactly
    those of the visited indices whose slot held raw bytes and for which
    the detector call returned. *)
Theorem updates_for_detected_raw_slots start end_ st :
  (forall index st0,
     Spec.cache_hit (Worker.item_at index (Worker.items (Worker.work st0))) ->
     Worker.getFaceFeatures E index st0
     = (JS.Ok (Spec.cached (Worker.item_at index (Worker.items (Worker.work st0)))), st0))
  /\ exists st' matched ups,
       Worker.verify E start end_ st = (JS.Ok tt, st')
       /\ Worker.outbox st'
          = Worker.outbox st ++ ups
            ++ [Worker.done (Worker.work st') matched (Worker.worker_id E)]
       /\ forall m, m ∈ ups <-> Spec.reports E (Spec.initial st start end_) m.
Proof.
  split.
  - intros index st0 Hhit. rewrite getFaceFeatures_eq.
    destruct (Worker.item_at index (Worker.items (Worker.work st0))) as [[bytes|f|v]|];
      try reflexivity.
    exfalso. by eapply Hhit.
  - destruct (verify_frame start end_ st)
      as (st' & matched & ups & Hv & Hout & _ & Hiff & _).
    by exists st', matched, ups.
Qed.

End Scanner.

Lemma cancelled_scan_stops_witness :
  exists st',
    Worker.verify Examples.stopping_env 0 1 (Examples.fresh Examples.two_raw) = (JS.Ok tt, st')
    /\ Worker.work st' = Worker.work Examples.after_first
    /\ Worker.calls st' = Worker.calls Examples.after_first
    /\ Worker.outbox st'
       = Worker.outbox Examples.after_first
         ++ [Worker.done (Worker.work Examples.after_first) None
               (Worker.worker_id Examples.stopping_env)].
Proof.
  apply (cancelled_scan_stops Examples.stopping_env 0 1 (Examples.fresh Examples.two_raw)
           1 (Worker.mk_locals [] [] 0) Examples.after_first).
  - exists []. apply rtc_once.
    apply (Spec.step_iteration Examples.stopping_env 0 [1] (Worker.mk_locals [] [] 0)
             _ None Examples.after_first); reflexivity.
  - reflexivity.
Defined.

(** The state in which the scan of the witness is cancelled, spelled out:
    slot 0 holds the sentinel, slot 1 its raw bytes, the detector has been
    called once. *)
Example after_first_state :
  Worker.items (Worker.work Examples.after_first)
    = [Worker.Empty JS.JNull; Worker.Raw [2]]
  /\ Worker.calls Examples.after_first = [[1]]
  /\ Worker.outbox Examples.after_first = [Worker.update 0 (Worker.Empty JS.JNull) 7]
  /\ Worker.stopped Examples.after_first = true.
Proof. repeat split; reflexivity. Qed.

(** A scan whose best-match search fails with ShapeMismatch: the error is
    logged and the done event carries no match. *)
Example misshapen_candidate_is_contained :
  snd (Worker.verify Examples.detecting_env 0 1 (Examples.fresh Examples.misshapen))
  = {| Worker.work := Examples.misshapen;
       Worker.stopped := false;
       Worker.calls := [];
       Worker.outbox := [Worker.done Examples.misshapen None 7];
       Worker.log := [Worker.LogVerifying "w3" 0 1; Worker.LogPreparing;
                      Worker.LogFindMatch; Worker.LogErr JS.ShapeMismatch] |}.
Proof. reflexivity. Qed.

(** A scan over more than the three samples there are: the second is
    detected, cached, reported and matched with confidence 1; the others
    yield no candidate. *)
Example scan_finds_identical_face :
  FaceLandmark.getFeatures (FaceLandmark.new Examples.deep_face)
  = (FaceLandmark.mk None (FaceLandmark.mk_box 0 0 8 8)%float
       (FaceLandmark.points (FaceLandmark.new Examples.deep_face))
       (FaceLandmark.named (FaceLandmark.new Examples.deep_face))
       (Some Examples.deep_features),
     Examples.deep_features)
  /\ let st' := (Worker.verify Examples.detecting_env 0 5
                   (Examples.fresh Examples.three_samples)).2 in
     Worker.items (Worker.work st')
       = [Worker.Empty JS.JNull; Worker.Features Examples.deep_features;
          Worker.Empty JS.JNull]
     /\ Worker.calls st' = [[2]; [1]]
     /\ Worker.outbox st'
        = [Worker.update 0 (Worker.Empty JS.JNull) 7;
           Worker.update 1 (Worker.Features Examples.deep_features) 7;
           Worker.done (Worker.work st')
             (Some {| Worker.label := Some 1; Worker.confidence := 1%float |}) 7]
     /\ Worker.log st'
        = [Worker.LogVerifying "w4" 0 5; Worker.LogPreparing;
           Worker.LogFindMatch; Worker.LogDone 1].
Proof.
  split; [vm_compute; reflexivity|]. cbv zeta.
  split; [vm_compute; reflexivity|].
  split; [vm_compute; reflexivity|].
  split; vm_compute; reflexivity.
Qed.

(** C9, refuted as stated: index 0 of [Examples.one_raw] is visited and
    its slot holds raw bytes, but the detector rejects the image and the
    scan sends no update message, only the done event. *)
Lemma rejected_image_sends_no_update :
  Spec.visited Examples.rejecting_env
    (Spec.initial (Examples.fresh Examples.one_raw) 0 0) 0
    (Spec.initial (Examples.fresh Examples.one_raw) 0 0).2
  /\ Worker.item_at 0 (Worker.items (Worker.work (Examples.fresh Examples.one_raw)))
     = Some (Worker.Raw [1])
  /\ Worker.outbox (Worker.verify Examples.rejecting_env 0 0
                      (Examples.fresh Examples.one_raw)).2
     = [Worker.done Examples.one_raw None 7].
Proof.
  split; [|split; reflexivity].
  exists (Worker.mk_locals [] [] 0). split; [|reflexivity].
  exists []. apply rtc_refl.
Qed.

(** ** More on the partition scanner *)

Section ScannerMore.

Context (E : Worker.env).

Implicit Types (st : Worker.state) (acc : Worker.locals) (c : Spec.config).

Lemma range_empty start end_ : end_ < start -> Worker.range start end_ = [].
Proof.
  intros Hlt. unfold Worker.range, seqZ.
  replace (Z.to_nat (end_ - start + 1)) with 0%nat by lia. reflexivity.
Qed.

(** X1: a scan over an empty range ([end < start]) looks at no slot: it
    calls no detector, writes no slot, logs zero samples and sends the done
    event with [matched] null as its only message. *)
Theorem empty_range_scan start end_ st :
  end_ < start ->
  Worker.verify E start end_ st
  = (JS.Ok tt,
     Worker.add_message (Worker.done (Worker.work st) None (Worker.worker_id E))
       (Worker.add_log (Worker.LogDone 0)
          (Worker.add_log Worker.LogPreparing
             (Worker.add_log
                (Worker.LogVerifying (Worker.id (Worker.work st)) start end_) st)))).
Proof.
  intros Hlt. rewrite verify_eq, verify_try_eq, (range_empty _ _ Hlt).
  cbn [Worker.scan mret Worker.worker_ret Worker.ret].
  cbn [Worker.features length Nat.eqb negb andb Worker.count].
  rewrite andb_false_r. reflexivity.
Qed.

Lemma slot_value_not_raw res bytes : Spec.slot_value res <> Worker.Raw bytes.
Proof. by destruct res. Qed.

(** A slot that is a cache hit stays one through an iteration, and the
    slot of an iteration that ends normally is one afterwards. *)
Lemma iteration_keeps_hits current st r st' :
  Worker.awaiting E current (Worker.getFaceFeatures E current) st = (r, st') ->
  (forall k, Spec.cache_hit (Worker.item_at k (Worker.items (Worker.work st))) ->
             Spec.cache_hit (Worker.item_at k (Worker.items (Worker.work st'))))
  /\ ((exists feature, r = JS.Ok feature) ->
      Spec.cache_hit (Worker.item_at current (Worker.items (Worker.work st')))).
Proof.
  intros Hiter. destruct (iteration_effect _ _ _ _ _ Hiter) as (_ & _ & Heff).
  destruct Heff as [(Hhit & _ & Hit & _)
                   |[(bytes & detection & Hslot & _ & _ & Hit & _)
                    |(bytes & e & _ & _ & -> & Hit & _)]]; rewrite Hit.
  - split; [done|]. intros _. exact Hhit.
  - apply item_at_Some in Hslot as [Hpos Hslot].
    apply lookup_lt_Some in Hslot.
    assert (Hnew : forall k, Z.to_nat k = Z.to_nat current ->
              Spec.cache_hit (Worker.item_at k
                (<[Z.to_nat current := Spec.slot_value (Spec.detected_features detection)]>
                   (Worker.items (Worker.work st))))).
    { intros k Hk bytes'. unfold Worker.item_at.
      destruct (k <? 0); [done|]. rewrite Hk, list_lookup_insert_eq by done.
      intros [= H]. by apply slot_value_not_raw in H. }
    split.
    + intros k Hk. destruct (Nat.eq_dec (Z.to_nat k) (Z.to_nat current)) as [Heq|Hne];
        [by apply Hnew|].
      intros bytes'. unfold Worker.item_at in *. destruct (k <? 0); [done|].
      rewrite list_lookup_insert_ne by done. apply Hk.
    + intros _. by apply Hnew.
  - split; [done|]. intros [feature [=]].
Qed.

(** Along the loop the slots of the indices gone through are cache hits,
    and the hits of the start stay hits. *)
Lemma reach_cached c0 c :
  rtc (Spec.step E) c0 c ->
  exists pre,
    c0.1.1 = pre ++ c.1.1
    /\ forall k, k ∈ pre \/ Spec.cache_hit (Worker.item_at k (Worker.items (Worker.work c0.2))) ->
         Spec.cache_hit (Worker.item_at k (Worker.items (Worker.work c.2))).
Proof.
  revert c. apply rtc_ind_r.
  - exists []. split; [done|]. intros k [Hk|Hk]; [by apply elem_of_nil in Hk | done].
  - intros c c' _ Hstep (pre & Hpre & Hhits).
    destruct Hstep as [current rest acc st feature st' Hrun Hiter]. cbn [fst snd] in *.
    destruct (iteration_keeps_hits _ _ _ _ Hiter) as [Hkeep Hnew].
    exists (pre ++ [current]). split; [by rewrite <- app_assoc|].
    intros k [[Hk| ->%list_elem_of_singleton]%elem_of_app|Hk].
    + apply Hkeep, Hhits. by left.
    + apply Hnew. by exists feature.
    + apply Hkeep, Hhits. by right.
Qed.

(** A loop that returns with the flag down has gone through its range. *)
Lemma scan_completed range acc st acc' st' :
  Worker.scan E range acc st = (JS.Ok acc', st') ->
  Worker.stopped st' = false ->
  rtc (Spec.step E) (range, acc, st) ([], acc', st').
Proof.
  intros Hscan Hrun.
  destruct (scan_run E range acc st) as (rest & acc1 & st1 & Hrtc & Hend).
  destruct Hend as [(-> & Hs)|[(k & rest' & -> & Hstop & Hs)
                              |(k & rest' & e & st'' & _ & _ & _ & Hs)]];
    rewrite Hs in Hscan; try discriminate; injection Hscan as <- <-; [done|congruence].
Qed.

(** X2: when the loop of a scan has gone through its range, [verify] ends
    with the items the loop left, and every slot with an index in
    [[start, end]] is a cache hit then: none holds raw bytes any more. *)
Theorem completed_scan_caches_range start end_ st acc st1 :
  rtc (Spec.step E) (Spec.initial st start end_) ([], acc, st1) ->
  exists st',
    Worker.verify E start end_ st = (JS.Ok tt, st')
    /\ Worker.items (Worker.work st') = Worker.items (Worker.work st1)
    /\ forall k, start <= k <= end_ ->
         Spec.cache_hit (Worker.item_at k (Worker.items (Worker.work st'))).
Proof.
  intros Hrtc.
  destruct (reach_cached _ _ Hrtc) as (pre & Hpre & Hhits).
  cbn [fst snd Spec.initial] in Hpre, Hhits. rewrite app_nil_r in Hpre. subst pre.
  pose proof (scan_rtc E _ _ Hrtc) as Hscan. cbn [fst snd Spec.initial] in Hscan.
  cbn [Worker.scan mret Worker.worker_ret Worker.ret] in Hscan.
  destruct (verify_frame E start end_ st) as (st' & matched & ups & Hv & _).
  exists st'. split; [done|].
  rewrite verify_eq in Hv.
  destruct (Worker.verify_try E start end_ _) as [r st2] eqn:Htry.
  destruct (verify_try_scan E _ _ _ _ _ Htry) as (r' & st3 & Hscan' & Hwork & _).
  cbn [fst snd Spec.initial] in Hscan'. rewrite Hscan in Hscan'.
  injection Hscan' as <- <-.
  assert (Hw : Worker.work st' = Worker.work st1).
  { destruct r; injection Hv as <-; done. }
  rewrite Hw. split; [done|].
  intros k Hk. apply Hhits. left. unfold Worker.range. apply elem_of_seqZ. lia.
Qed.

(** Over slots that all are cache hits the loop goes through without the
    detector, without a message and without a write. *)
Lemma scan_all_hits range : forall acc st,
  (forall k, k ∈ range ->
     Spec.cache_hit (Worker.item_at k (Worker.items (Worker.work st)))) ->
  exists acc' st',
    Worker.scan E range acc st = (JS.Ok acc', st')
    /\ Worker.work st' = Worker.work st
    /\ Worker.calls st' = Worker.calls st
    /\ Worker.outbox st' = Worker.outbox st.
Proof.
  induction range as [|current rest IH]; intros acc st Hhits.
  - by exists acc, st.
  - rewrite scan_cons. destruct (Worker.stopped st); [by exists acc, st|].
    destruct (Worker.awaiting E current (Worker.getFaceFeatures E current) st)
      as [r st1] eqn:Hiter.
    destruct (iteration_effect _ _ _ _ _ Hiter) as (Hid & Hfeat & Heff).
    destruct Heff as [(_ & -> & Hit & Hcalls & Hout)
                     |[(bytes & ? & Hslot & _)|(bytes & ? & Hslot & _)]];
      try (exfalso; eapply Hhits; [apply list_elem_of_here | exact Hslot]).
    assert (Hwork : Worker.work st1 = Worker.work st).
    { destruct (Worker.work st1), (Worker.work st). simpl in *. congruence. }
    match goal with |- context [Worker.scan E rest ?a st1] =>
      destruct (IH a st1) as (acc' & st' & Hscan & Hw & Hc & Ho) end.
    { intros k Hk. rewrite Hwork. apply Hhits. by apply list_elem_of_further. }
    exists acc', st'. split; [done|]. split; [congruence|]. split; congruence.
Qed.

(** X3: a scan over a range all of whose slots are cache hits calls no
    detector, writes nothing to the work object and sends the done event
    as its only message; with X2, a range scanned to its end is never sent
    to the detector again. *)
Theorem cached_range_needs_no_detector start end_ st :
  (forall k, start <= k <= end_ ->
     Spec.cache_hit (Worker.item_at k (Worker.items (Worker.work st)))) ->
  exists st' matched,
    Worker.verify E start end_ st = (JS.Ok tt, st')
    /\ Worker.calls st' = Worker.calls st
    /\ Worker.work st' = Worker.work st
    /\ Worker.outbox st'
       = Worker.outbox st ++ [Worker.done (Worker.work st) matched (Worker.worker_id E)].
Proof.
  intros Hhits. rewrite verify_eq, verify_try_eq.
  destruct (scan_all_hits (Worker.range start end_) (Worker.mk_locals [] [] 0)
              (Worker.add_log Worker.LogPreparing
                 (Worker.add_log
                    (Worker.LogVerifying (Worker.id (Worker.work st)) start end_) st)))
    as (acc & st1 & -> & Hw & Hc & Ho).
  { intros k Hk. apply Hhits. unfold Worker.range in Hk. apply elem_of_seqZ in Hk. lia. }
  cbn [Worker.add_log Worker.work Worker.calls Worker.outbox] in Hw, Hc, Ho.
  destruct (negb (Worker.stopped st1) && _).
  - destruct (FaceFeatures.find _ _ _) as [found|e];
      eexists _, _; (split; [reflexivity|]);
      cbn [Worker.add_message Worker.add_log Worker.work Worker.calls Worker.outbox];
      rewrite ?Hw, ?Hc, ?Ho; done.
  - eexists _, _; (split; [reflexivity|]);
      cbn [Worker.add_message Worker.add_log Worker.work Worker.calls Worker.outbox];
      rewrite ?Hw, ?Hc, ?Ho; done.
Qed.

End ScannerMore.

Section ScannerCandidates.

Context (E : Worker.env).

Implicit Types (st : Worker.state) (acc : Worker.locals) (c : Spec.config).

(** Along a loop that starts without candidates, [features], [indices]
    and [count] go together: the candidate at a position was found at the
    index at that position, an index of the range whose slot holds it. *)
Lemma reach_candidates c0 c :
  rtc (Spec.step E) c0 c ->
  Worker.features c0.1.2 = [] -> Worker.indices c0.1.2 = [] ->
  length (Worker.indices c.1.2) = length (Worker.features c.1.2)
  /\ forall j f, Worker.features c.1.2 !! j = Some f ->
       exists k, Worker.indices c.1.2 !! j = Some k
         /\ k ∈ c0.1.1
         /\ Worker.item_at k (Worker.items (Worker.work c.2)) = Some (Worker.Features f).
Proof.
  intros Hrtc Hf0 Hi0. revert c Hrtc. apply rtc_ind_r.
  - rewrite Hf0, Hi0. split; [done|]. intros j f Hj. by rewrite lookup_nil in Hj.
  - intros c c' Hreach Hstep (Hlen & Hall).
    destruct Hstep as [current rest acc st feature st' Hrun Hiter]. cbn [fst snd] in *.
    assert (Hin : current ∈ c0.1.1).
    { apply reach_suffix in Hreach as [pre ->]. cbn [fst].
      apply elem_of_app. right. apply list_elem_of_here. }
    destruct (iteration_effect _ _ _ _ _ Hiter) as (_ & _ & Heff).
    (* the candidates found before keep their slots *)
    assert (Hold : forall k f,
              Worker.item_at k (Worker.items (Worker.work st)) = Some (Worker.Features f) ->
              Worker.item_at k (Worker.items (Worker.work st')) = Some (Worker.Features f)).
    { intros k f Hk.
      destruct Heff as [(_ & _ & -> & _)
                       |[(bytes & detection & Hslot & _ & _ & -> & _)
                        |(bytes & e & _ & _ & _ & -> & _)]]; try done.
      apply item_at_Some in Hk as [Hkpos Hk]. apply item_at_Some in Hslot as [Hpos Hslot].
      unfold Worker.item_at. destruct (Z.ltb_spec k 0); [lia|].
      rewrite list_lookup_insert_ne; [done|].
      intros Heq. rewrite Heq in Hslot. congruence. }
    (* the slot of this iteration holds the candidate it returns *)
    assert (Hnew : forall f, feature = Some f ->
              Worker.item_at current (Worker.items (Worker.work st'))
              = Some (Worker.Features f)).
    { intros f ->.
      destruct Heff as [(_ & [= Hc] & -> & _)
                       |[(bytes & detection & Hslot & _ & [= Hd] & -> & _)
                        |(bytes & e & _ & _ & [=] & _)]].
      - destruct (Worker.item_at current _) as [[?|?|?]|]; simpl in Hc; congruence.
      - apply item_at_Some in Hslot as [Hpos Hslot]. apply lookup_lt_Some in Hslot.
        unfold Worker.item_at. destruct (Z.ltb_spec current 0); [lia|].
        rewrite list_lookup_insert_eq by done. by rewrite <- Hd. }
    destruct feature as [f|]; cbn [Worker.features Worker.indices].
    + split; [rewrite !length_app; simpl; lia|].
      intros j g Hj. apply lookup_app_Some in Hj as [Hj|[Hge Hj]].
      * destruct (Hall j g Hj) as (k & Hk & Hkin & Hslot).
        exists k. split; [by apply lookup_app_l_Some|]. split; [done|]. by apply Hold.
      * apply list_lookup_singleton_Some in Hj as [Hj0 <-].
        exists current. split; [|split; [done|by apply Hnew]].
        rewrite lookup_app_r by lia.
        replace (j - length (Worker.indices acc))%nat with 0%nat by lia. done.
    + split; [done|]. intros j g Hj.
      destruct (Hall j g Hj) as (k & Hk & Hkin & Hslot).
      exists k. split; [done|]. split; [done|]. by apply Hold.
Qed.

(** X4: the done event of every scan is its last message, and a match it
    carries is a candidate of the partition: the label is an index in
    [[start, end]] whose slot holds a feature vector when the event is
    sent, the distance of the probe from that vector is within the default
    threshold, the confidence is one minus that distance, and the scan was
    not cancelled. *)
Theorem matched_is_cached_candidate start end_ st :
  exists st' matched,
    Worker.verify E start end_ st = (JS.Ok tt, st')
    /\ last (Worker.outbox st')
       = Some (Worker.done (Worker.work st') matched (Worker.worker_id E))
    /\ forall l conf,
         matched = Some {| Worker.label := l; Worker.confidence := conf |} ->
         exists k f d,
           l = Some k /\ start <= k <= end_
           /\ Worker.item_at k (Worker.items (Worker.work st')) = Some (Worker.Features f)
           /\ FaceFeatures.distance
                (FaceFeatures.from (Worker.feature (Worker.work st'))) (JS.Obj f)
              = JS.Ok (Some d)
           /\ (d <=? FaceFeatures.default_confidence)%float = true
           /\ conf = (1 - d)%float
           /\ Worker.stopped st' = false.
Proof.
  rewrite verify_eq, verify_try_eq.
  destruct (scan_run E (Worker.range start end_) (Worker.mk_locals [] [] 0)
              (Worker.add_log Worker.LogPreparing
                 (Worker.add_log
                    (Worker.LogVerifying (Worker.id (Worker.work st)) start end_) st)))
    as (rest & acc & st1 & Hrtc & Hend).
  destruct (reach_candidates _ _ Hrtc eq_refl eq_refl) as [Hlen Hall].
  cbn [fst snd] in Hlen, Hall.
  assert (Hscan : (exists e st2, Worker.scan E (Worker.range start end_)
                     (Worker.mk_locals [] [] 0)
                     (Worker.add_log Worker.LogPreparing
                        (Worker.add_log
                           (Worker.LogVerifying (Worker.id (Worker.work st)) start end_) st))
                   = (JS.Throw e, st2))
                  \/ Worker.scan E (Worker.range start end_)
                       (Worker.mk_locals [] [] 0)
                       (Worker.add_log Worker.LogPreparing
                          (Worker.add_log
                             (Worker.LogVerifying (Worker.id (Worker.work st)) start end_) st))
                     = (JS.Ok acc, st1)).
  { destruct Hend as [(_ & Hs)|[(k & rest' & _ & _ & Hs)
                               |(k & rest' & e & st2 & _ & _ & _ & Hs)]];
      [by right|by right|left; by exists e, st2]. }
  destruct Hscan as [(e & st2 & ->)| ->].
  { eexists _, None. split; [reflexivity|]. split; [|done].
    cbn [Worker.add_message Worker.outbox]. by rewrite last_snoc. }
  destruct (Worker.stopped st1) eqn:Hrun; cbn [negb andb].
  { eexists _, None. split; [reflexivity|]. split; [|done].
    cbn [Worker.add_message Worker.outbox]. by rewrite last_snoc. }
  destruct (negb (Nat.eqb (length (Worker.features acc)) 0)).
  2:{ eexists _, None. split; [reflexivity|]. split; [|done].
      cbn [Worker.add_message Worker.outbox]. by rewrite last_snoc. }
  destruct (FaceFeatures.find _ _ _) as [[index conf']|e] eqn:Hfind.
  2:{ eexists _, None. split; [reflexivity|]. split; [|done].
      cbn [Worker.add_message Worker.outbox]. by rewrite last_snoc. }
  eexists _, _. split; [reflexivity|]. split.
  { cbn [Worker.add_message Worker.outbox]. by rewrite last_snoc. }
  cbn [fst snd Worker.add_message Worker.add_log Worker.work Worker.stopped].
  intros l conf Hm. destruct index as [m|]; [|discriminate].
  injection Hm as <- <-.
  unfold FaceFeatures.find in Hfind.
  apply find_from_selected in Hfind as [[=]|(idx & c & d & [= -> ->] & Hin & Hd & Hle)].
  apply elem_of_entries in Hin. rewrite list_lookup_fmap in Hin.
  destruct (Worker.features acc !! idx) as [f|] eqn:Hf; [|discriminate].
  injection Hin as <-.
  destruct (Hall idx f Hf) as (k & Hk & Hkin & Hslot).
  exists k, f, d. split; [done|]. split.
  { unfold Worker.range in Hkin. apply elem_of_seqZ in Hkin. lia. }
  done.
Qed.

(** Along the loop the update messages sent report, in order, indices
    that the loop has gone through, each at most once. *)
Lemma reach_order c0 c :
  rtc (Spec.step E) c0 c ->
  exists pre ups idxs,
    c0.1.1 = pre ++ c.1.1
    /\ Worker.outbox c.2 = Worker.outbox c0.2 ++ ups
    /\ Forall2 (fun m index => exists data, m = Worker.update index data (Worker.worker_id E))
         ups idxs
    /\ sublist idxs pre.
Proof.
  revert c. apply rtc_ind_r.
  - exists [], [], []. split; [done|]. split; [by rewrite app_nil_r|]. split; constructor.
  - intros c c' _ Hstep (pre & ups & idxs & Hpre & Hout & Hups & Hsub).
    destruct Hstep as [current rest acc st feature st' Hrun Hiter]. cbn [fst snd] in *.
    destruct (iteration_effect _ _ _ _ _ Hiter) as (_ & _ & Heff).
    destruct Heff as [(_ & _ & _ & _ & Hout')
                     |[(bytes & detection & _ & _ & _ & _ & _ & Hout')
                      |(bytes & e & _ & _ & [=] & _)]].
    + exists (pre ++ [current]), ups, idxs.
      split; [by rewrite <- app_assoc|]. split; [congruence|]. split; [done|].
      by apply sublist_inserts_r.
    + exists (pre ++ [current]),
             (ups ++ [Worker.update current
                        (Spec.slot_value (Spec.detected_features detection))
                        (Worker.worker_id E)]),
             (idxs ++ [current]).
      split; [by rewrite <- app_assoc|]. split; [by rewrite Hout', Hout, app_assoc|].
      split; [|by apply sublist_app].
      apply Forall2_app; [done|]. constructor; [by eexists|constructor].
Qed.

(** X5: the messages a scan sends before its done event are update
    messages whose indices, in the order sent, are a sublist of [start],
    [start + 1], ..., [end]: updates go out in ascending order of index,
    at most one per index, and for no index outside the range. *)
Theorem updates_follow_the_range start end_ st :
  exists st' matched ups idxs,
    Worker.verify E start end_ st = (JS.Ok tt, st')
    /\ Worker.outbox st'
       = Worker.outbox st ++ ups
         ++ [Worker.done (Worker.work st') matched (Worker.worker_id E)]
    /\ Forall2 (fun m index => exists data, m = Worker.update index data (Worker.worker_id E))
         ups idxs
    /\ sublist idxs (Worker.range start end_).
Proof.
  destruct (verify_frame E start end_ st) as (st' & matched & ups & Hv & Hout & _).
  exists st', matched, ups. pose proof Hv as Hv'.
  rewrite verify_eq in Hv.
  destruct (Worker.verify_try E start end_ _) as [r st2] eqn:Htry.
  destruct (verify_try_scan E _ _ _ _ _ Htry) as (r' & st3 & Hscan & _ & Hout3 & _).
  destruct (scan_run E (Spec.initial st start end_).1.1 (Spec.initial st start end_).1.2
              (Spec.initial st start end_).2) as (rest & acc & stf & Hrtc & Hend).
  destruct (reach_order _ _ Hrtc) as (pre & ups' & idxs & Hpre & Houtf & Hups & Hsub).
  cbn [fst snd Spec.initial Worker.add_log Worker.outbox] in *.
  assert (Hsame : Worker.outbox st3 = Worker.outbox stf).
  { destruct Hend as [(_ & Hs)|[(k & rest' & _ & _ & Hs)
                               |(k & rest' & e & st4 & _ & _ & Hthrow & Hs)]];
      rewrite Hs in Hscan; injection Hscan as <- <-; try done.
    destruct (iteration_effect _ _ _ _ _ Hthrow) as (_ & _ & Heff).
    destruct Heff as [(_ & [=] & _)|[(? & ? & _ & _ & [=] & _)
                                    |(? & ? & _ & _ & _ & _ & _ & Ho)]]. done. }
  assert (Heq : Worker.outbox st2 = Worker.outbox st ++ ups).
  { destruct r; injection Hv as <-;
      cbn [Worker.add_message Worker.add_log Worker.outbox Worker.work] in Hout;
      rewrite app_assoc in Hout; by apply app_inj_tail in Hout as [Hout _]. }
  rewrite Hout3, Hsame, Houtf in Heq. apply app_inv_head in Heq as ->.
  exists idxs. split; [done|]. split; [done|]. split; [done|].
  rewrite Hpre. by apply sublist_inserts_r.
Qed.

End ScannerCandidates.

(** ** The face-api worker *)

Section ApiWorker.

Context (E : WorkerApi.env).

Ltac run_api :=
  unfold mbind, mret, Worker.worker_bind, Worker.worker_ret,
    Worker.send, Worker.log_, Worker.error_, Worker.assign_item, Worker.try_catch;
  unfold Worker.bind, Worker.ret, Worker.gets, Worker.modify, Worker.lift;
  cbv beta iota.

Lemma api_getFaceFeatures index st :
  WorkerApi.getFaceFeatures E index st
  = Worker.getFaceFeatures (WorkerApi.as_ng E) index st.
Proof.
  unfold WorkerApi.getFaceFeatures, Worker.getFaceFeatures. run_api.
  destruct (Worker.item_at index (Worker.items (Worker.work st))) as [[bytes|f|v]|];
    try reflexivity.
  unfold WorkerApi.getFace, Worker.getFaces, WorkerApi.call_detector, Worker.call_detector.
  run_api. cbn [WorkerApi.as_ng Worker.detector_getFaces Worker.worker_id].
  destruct (WorkerApi.detector_getFace E (Worker.calls st) (Worker.Buffer_from bytes))
    as [[landmark|]|e]; reflexivity.
Qed.

Lemma api_scan range : forall acc st,
  WorkerApi.scan E range acc st = Worker.scan (WorkerApi.as_ng E) range acc st.
Proof.
  induction range as [|current rest IH]; intros acc st; [reflexivity|].
  rewrite scan_cons. cbn [WorkerApi.scan]. run_api.
  destruct (Worker.stopped st); [reflexivity|].
  unfold WorkerApi.awaiting, Worker.awaiting. rewrite api_getFaceFeatures.
  cbn [WorkerApi.as_ng Worker.stop_during].
  destruct (Worker.getFaceFeatures (WorkerApi.as_ng E) current st) as [[feature|e] st'];
    [apply IH | reflexivity].
Qed.

(** X6: the face-api worker is the face-ng worker with a detector that
    reports the one landmark of [getFace] as the only face of [getFaces]:
    [verify] and the message handler of the two workers return the same
    result and leave the same state, so what holds for every scan of the
    face-ng worker holds for the scans of the face-api worker. *)
Theorem api_worker_is_ng_worker start end_ st :
  WorkerApi.verify E start end_ st = Worker.verify (WorkerApi.as_ng E) start end_ st
  /\ forall data,
       WorkerApi.on_message E data st = Worker.on_message (WorkerApi.as_ng E) data st.
Proof.
  assert (Htry : forall s e st0,
            WorkerApi.verify_try E s e st0 = Worker.verify_try (WorkerApi.as_ng E) s e st0).
  { intros s e st0. unfold WorkerApi.verify_try, Worker.verify_try. run_api.
    by rewrite api_scan. }
  assert (Hverify : forall s e st0,
            WorkerApi.verify E s e st0 = Worker.verify (WorkerApi.as_ng E) s e st0).
  { intros s e st0. unfold WorkerApi.verify, Worker.verify. run_api.
    by rewrite Htry. }
  split; [apply Hverify|].
  intros [w s e| |]; try reflexivity.
  unfold WorkerApi.on_message, Worker.on_message. run_api. apply Hverify.
Qed.

End ApiWorker.

Lemma empty_range_scan_witness :
  Worker.verify Examples.detecting_env 3 1 (Examples.fresh Examples.three_samples)
  = (JS.Ok tt,
     {| Worker.work := Examples.three_samples;
        Worker.stopped := false;
        Worker.calls := [];
        Worker.outbox := [Worker.done Examples.three_samples None 7];
        Worker.log := [Worker.LogVerifying "w4" 3 1; Worker.LogPreparing;
                       Worker.LogDone 0] |}).
Proof. apply (empty_range_scan Examples.detecting_env 3 1). reflexivity. Defined.

Lemma completed_scan_caches_range_witness :
  exists st',
    Worker.verify Examples.detecting_env 0 5 (Examples.fresh Examples.three_samples)
    = (JS.Ok tt, st')
    /\ Worker.items (Worker.work st') = Worker.items (Worker.work Examples.scanned.2)
    /\ forall k, 0 <= k <= 5 ->
         Spec.cache_hit (Worker.item_at k (Worker.items (Worker.work st'))).
Proof.
  apply (completed_scan_caches_range Examples.detecting_env 0 5
           (Examples.fresh Examples.three_samples) Examples.scanned.1).
  apply (scan_completed Examples.detecting_env (Worker.range 0 5)
           (Worker.mk_locals [] [] 0)
           (Spec.initial (Examples.fresh Examples.three_samples) 0 5).2).
  - vm_compute. reflexivity.
  - reflexivity.
Defined.

Lemma cached_range_needs_no_detector_witness :
  exists st' matched,
    Worker.verify Examples.rejecting_env 0 1 (Examples.fresh Examples.misshapen)
    = (JS.Ok tt, st')
    /\ Worker.calls st' = []
    /\ Worker.work st' = Examples.misshapen
    /\ Worker.outbox st' = [] ++ [Worker.done Examples.misshapen matched 7].
Proof.
  apply (cached_range_needs_no_detector Examples.rejecting_env 0 1
           (Examples.fresh Examples.misshapen)).
  intros k Hk bytes. assert (k = 0 \/ k = 1) as [-> | ->] by lia; discriminate.
Defined.

(** ** More on the best-match search *)

Section NumberOrder.

Lemma SFcompare_Lt_trans (a b c : spec_float) :
  SFcompare a b = Some Lt -> SFcompare b c = Some Lt -> SFcompare a c = Some Lt.
Proof.
  destruct a as [sa|sa| |sa ma ea], b as [sb|sb| |sb mb eb], c as [sc|sc| |sc mc ec];
    simpl; try discriminate; try reflexivity;
    try (destruct sa; simpl; try discriminate; try reflexivity);
    try (destruct sb; simpl; try discriminate; try reflexivity);
    try (destruct sc; simpl; try discriminate; try reflexivity);
    change (Pos.compare_cont Eq) with Pos.compare;
    repeat match goal with
           | |- context [Z.compare ?x ?y] => destruct (Z.compare_spec x y)
           end;
    repeat match goal with
           | |- context [Pos.compare ?x ?y] => destruct (Pos.compare_spec x y)
           end;
    simpl; try discriminate; try reflexivity; intros; exfalso; lia.
Qed.

(** [<] on numbers is transitive. *)
Lemma number_lt_trans (a b c : JS.number) :
  (a <? b)%float = true -> (b <? c)%float = true -> (a <? c)%float = true.
Proof.
  rewrite !FloatAxioms.ltb_spec. unfold SFltb. intros Hab Hbc.
  destruct (SFcompare (Prim2SF a) (Prim2SF b)) as [[]|] eqn:H1; try discriminate.
  destruct (SFcompare (Prim2SF b) (Prim2SF c)) as [[]|] eqn:H2; try discriminate.
  by rewrite (SFcompare_Lt_trans _ _ _ H1 H2).
Qed.

End NumberOrder.

Section FindMore.

Context (this : FaceFeatures.t) (confidence : JS.number).

Implicit Types (entries : list (nat * JS.arg FaceFeatures.t))
               (st : option nat * option JS.number)
               (cands : list (JS.arg FaceFeatures.t)).

(** X7: [find] fails with the error of the first candidate whose distance
    cannot be computed, whatever the candidates before and after it are:
    one candidate of another shape loses the whole search. *)
Theorem find_throws_at_first_failure cands i c e :
  cands !! i = Some c ->
  FaceFeatures.distance this c = JS.Throw e ->
  (forall j cj, (j < i)%nat -> cands !! j = Some cj ->
     exists od, FaceFeatures.distance this cj = JS.Ok od) ->
  FaceFeatures.find this cands confidence = JS.Throw e.
Proof.
  intros Hi Hc Hbefore. unfold FaceFeatures.find.
  rewrite <- (take_drop_middle cands i c Hi).
  assert (Hlen : length (take i cands) = i).
  { apply length_take_le. apply lookup_lt_Some in Hi. lia. }
  rewrite imap_app, imap_cons, Hlen, Nat.add_0_r, find_from_app.
  destruct (find_from_invariant this confidence (fun _ => True)
              (imap pair (take i cands)) (None, None)) as (st1 & -> & _); [done| |].
  - intros idx cj Hin. apply elem_of_entries in Hin.
    apply lookup_take_Some in Hin as [Hcj Hlt].
    destruct (Hbefore idx cj Hlt Hcj) as (od & Hod). by exists od.
  - cbn [mbind JS.result_bind JS.bind FaceFeatures.find_from].
    unfold FaceFeatures.find_step. rewrite Hc. reflexivity.
Qed.

(** What the search holds at the end is not beaten by what it held at the
    start nor by any entry it went through. *)
Lemma find_from_not_better entries : forall st r,
  FaceFeatures.find_from this confidence entries st = JS.Ok r ->
  forall dj,
    Spec.not_better confidence st dj
    \/ (exists idx c, (idx, c) ∈ entries
          /\ FaceFeatures.distance this c = JS.Ok (Some dj)) ->
    Spec.not_better confidence r dj.
Proof.
  induction entries as [|[idx c] l IH]; intros st r; simpl.
  - intros [= ->] dj [H|(? & ? & H & _)]; [done | by apply elem_of_nil in H].
  - unfold FaceFeatures.find_step.
    destruct (FaceFeatures.distance this c) as [od|e] eqn:Hod; simpl; [|discriminate].
    intros Hr dj Hdj. apply (IH _ _ Hr). clear IH Hr.
    unfold Spec.not_better in *.
    assert (Hstep : forall st', Spec.not_better confidence st dj ->
              (forall d conf, snd st = Some conf -> snd st' = Some d ->
                 d = conf \/ (d <? conf)%float = true) ->
              (snd st = None \/ exists d, snd st' = Some d) ->
              Spec.not_better confidence st' dj).
    { intros st' Hnb Hle Hsome Hin. specialize (Hnb Hin).
      destruct (snd st) as [conf|] eqn:Hst; [|done].
      destruct Hsome as [[=]|[d Hd]]. rewrite Hd.
      destruct (Hle d conf eq_refl Hd) as [->|Hlt]; [done|].
      destruct (dj <? d)%float eqn:Hdj'; [|done].
      by rewrite (number_lt_trans _ _ _ Hdj' Hlt) in Hnb. }
    destruct Hdj as [Hnb|(idx' & c' & Hin & Hd')].
    + left. destruct od as [d|]; [|exact Hnb].
      destruct (d <=? confidence)%float eqn:Hle; simpl; [|exact Hnb].
      destruct (match snd st with Some conf => (d <? conf)%float | None => true end)
        eqn:Hsel; [|exact Hnb].
      apply Hstep; [exact Hnb| |right; by exists d].
      intros d0 conf0 Hc [= <-]. rewrite Hc in Hsel. by right.
    + apply elem_of_cons in Hin as [[= -> ->]|Hin]; [|right; by exists idx', c'].
      left. rewrite Hod in Hd'. injection Hd' as ->.
      intros Hle. rewrite Hle. simpl.
      destruct (snd st) as [conf|] eqn:Hst; [destruct (dj <? conf)%float eqn:Hlt|];
        simpl; rewrite ?Hst; first [apply number_lt_irrefl | exact Hlt].
Qed.

(** X8: when some candidate is within the threshold, [find] (if it
    returns) returns a candidate, and no candidate within the threshold has
    a distance below the one returned: the result is a nearest candidate. *)
Theorem find_returns_a_minimum cands index conf j cj dj :
  FaceFeatures.find this cands confidence = JS.Ok (index, conf) ->
  cands !! j = Some cj ->
  FaceFeatures.distance this cj = JS.Ok (Some dj) ->
  (dj <=? confidence)%float = true ->
  exists i d, index = Some i /\ conf = Some d /\ (dj <? d)%float = false.
Proof.
  intros Hfind Hj Hdj Hle. unfold FaceFeatures.find in Hfind.
  pose proof (find_from_not_better _ _ _ Hfind dj) as Hnb.
  assert (Hin : (j, cj) ∈ imap pair cands) by by apply elem_of_entries.
  specialize (Hnb (or_intror (ex_intro _ j (ex_intro _ cj (conj Hin Hdj)))) Hle).
  cbn [snd] in Hnb. destruct conf as [d|]; [|done].
  apply find_from_selected in Hfind as [[=]|(i & c & d' & [= -> <-] & _)].
  by exists i, d.
Qed.

End FindMore.

Lemma find_throws_at_first_failure_witness :
  FaceFeatures.find Examples.probe
    [JS.Obj Examples.probe; JS.Obj Examples.eye_and_lips; JS.Obj Examples.probe]
    FaceFeatures.default_confidence
  = JS.Throw JS.ShapeMismatch.
Proof.
  apply (find_throws_at_first_failure _ _ _ 1%nat (JS.Obj Examples.eye_and_lips)).
  - reflexivity.
  - reflexivity.
  - intros [|j] cj Hlt; [|lia]. simpl. intros [= <-]. eexists. vm_compute. reflexivity.
Defined.

Lemma find_returns_a_minimum_witness :
  exists i d, Some 1%nat = Some i /\ Some 0%float = Some d /\ (0 <? d)%float = false.
Proof.
  apply (find_returns_a_minimum Examples.probe FaceFeatures.default_confidence
           Examples.candidates (Some 1%nat) (Some 0%float) 2%nat (JS.Obj Examples.probe)
           0%float); reflexivity.
Defined.

(** ** More on the distance *)

Section NumberArithmetic.

Lemma binary_round_opp m e :
  binary_round prec emax true m e = SFopp (binary_round prec emax false m e).
Proof.
  unfold binary_round, binary_round_aux.
  destruct (shl_align m e _) as [mz ez].
  destruct (shr_fexp prec emax (Z.pos mz) ez loc_Exact) as [mrs' e'].
  destruct (shr_fexp prec emax _ e' loc_Exact) as [mrs'' e''].
  destruct (shr_m mrs''); simpl; try reflexivity.
  destruct (Z.leb e'' _); reflexivity.
Qed.

(** [y - x] is the opposite of [x - y], unless both are [+0]. *)
Lemma SFsub_swap x y :
  SF64sub y x = SFopp (SF64sub x y)
  \/ (SF64sub x y = S754_zero false /\ SF64sub y x = S754_zero false).
Proof.
  unfold SF64sub.
  destruct x as [sx|sx| |sx mx ex], y as [sy|sy| |sy my ey]; simpl;
    try (left; reflexivity);
    try (destruct sx, sy; simpl; (left; reflexivity) || (right; split; reflexivity)).
  rewrite (Z.min_comm ey ex).
  set (A := cond_Zopp sx (Z.pos (shl_align mx ex (Z.min ex ey)).1)).
  set (B := cond_Zopp sy (Z.pos (shl_align my ey (Z.min ex ey)).1)).
  replace (B - A)%Z with (- (A - B))%Z by lia.
  destruct (A - B)%Z; simpl.
  - right. split; reflexivity.
  - left. apply binary_round_opp.
  - left. rewrite binary_round_opp.
    destruct (binary_round _ _ _ _ _) as [[]|[]| |[] ? ?]; reflexivity.
Qed.

Lemma SFmul_opp u : SF64mul (SFopp u) (SFopp u) = SF64mul u u.
Proof.
  unfold SF64mul. destruct u as [s|s| |s m e]; simpl; try reflexivity;
    destruct s; reflexivity.
Qed.

(** The square of a difference does not depend on the order of its terms. *)
Lemma number_sq_diff_sym (x y : JS.number) :
  ((x - y) * (x - y) = (y - x) * (y - x))%float.
Proof.
  apply Prim2SF_inj. rewrite !FloatAxioms.mul_spec, !FloatAxioms.sub_spec.
  destruct (SFsub_swap (Prim2SF x) (Prim2SF y)) as [-> | [-> ->]]; [|reflexivity].
  by rewrite SFmul_opp.
Qed.

Lemma number_add_nan_r (a : JS.number) : (a + nan)%float = nan.
Proof.
  apply Prim2SF_inj. rewrite FloatAxioms.add_spec. change (Prim2SF nan) with S754_nan.
  unfold SF64add. by destruct (Prim2SF a).
Qed.

Lemma number_add_nan_l (a : JS.number) : (nan + a)%float = nan.
Proof.
  apply Prim2SF_inj. rewrite FloatAxioms.add_spec. change (Prim2SF nan) with S754_nan.
  reflexivity.
Qed.

Lemma number_sub_nan_r (a : JS.number) : (a - nan)%float = nan.
Proof.
  apply Prim2SF_inj. rewrite FloatAxioms.sub_spec. change (Prim2SF nan) with S754_nan.
  unfold SF64sub. by destruct (Prim2SF a).
Qed.

Lemma number_div_nan_l (a : JS.number) : (nan / a)%float = nan.
Proof.
  apply Prim2SF_inj. rewrite FloatAxioms.div_spec. change (Prim2SF nan) with S754_nan.
  reflexivity.
Qed.

(** Zero divided by the number of groups, for up to as many groups as
    there are markers. *)
Lemma zero_over_length (n : nat) :
  (0 < n <= 8)%nat -> (0 / JS.of_length n)%float = 0%float.
Proof.
  intros Hn. do 9 (destruct n as [|n]; [first [lia | reflexivity]|]). lia.
Qed.

End NumberArithmetic.

Section DistanceMore.

Implicit Types (a b this features : FaceFeatures.t) (xs ys : list JS.number).

Lemma mapM_ext {A B} (f g : A -> JS.result B) (l : list A) :
  (forall x, x ∈ l -> f x = g x) -> JS.mapM f l = JS.mapM g l.
Proof.
  induction l as [|x l IH]; intros H; simpl; [done|].
  rewrite (H x) by apply list_elem_of_here.
  rewrite IH; [done|]. intros y Hy. apply H. by apply list_elem_of_further.
Qed.


Lemma distance_feature_Ok xs other :
  xs = [] \/ is_Some other -> exists v, FaceFeatures.distance_feature xs other = JS.Ok v.
Proof.
  unfold FaceFeatures.distance_feature. intros [->|[ys ->]]; [by eexists|].
  destruct xs; by eexists.
Qed.



Lemma distance_feature_take xs ys :
  FaceFeatures.distance_feature xs (Some ys)
  = FaceFeatures.distance_feature xs (Some (take (length xs) ys)).
Proof.
  unfold FaceFeatures.distance_feature. destruct xs as [|x xs]; [done|].
  do 2 f_equal. apply imap_ext. intros i v Hi. f_equal.
  apply lookup_lt_Some in Hi. by rewrite lookup_take_lt.
Qed.

(** X10: [distance] reads of each group of its argument only as many
    values as the receiver's group has: two arguments with equally many
    keys whose groups agree on these values (where the receiver has the
    group) give the same result, be it a number or an error. *)
Theorem distance_ignores_the_excess this f1 f2 :
  length (FaceFeatures.keys f1) = length (FaceFeatures.keys f2) ->
  (forall k xs, (k, xs) ∈ this ->
     take (length xs) <$> FaceFeatures.get k f1
     = take (length xs) <$> FaceFeatures.get k f2) ->
  FaceFeatures.distance this (JS.Obj f1) = FaceFeatures.distance this (JS.Obj f2).
Proof.
  intros Hlen Hall. unfold FaceFeatures.distance. rewrite Hlen.
  destruct (negb _); [done|]. f_equal. apply mapM_ext.
  intros [k xs] Hin. specialize (Hall k xs Hin).
  destruct (FaceFeatures.get k f1) as [ys1|], (FaceFeatures.get k f2) as [ys2|];
    try discriminate; [|done].
  rewrite (distance_feature_take xs ys1), (distance_feature_take xs ys2).
  by injection Hall as ->.
Qed.

Lemma sum_squares_from_nan (l : list JS.number) :
  fold_left (fun s d => (s + d * d)%float) l nan = nan.
Proof. induction l as [|d l IH]; simpl; [done|]. by rewrite number_add_nan_l. Qed.

Lemma sum_squares_nan (pairs : list FaceFeatures.xy) : forall acc,
  (exists p, p ∈ pairs /\ FaceFeatures.y p = None) ->
  fold_left (fun s d => (s + d * d)%float)
    (map (fun p => (FaceFeatures.x p - JS.to_number (FaceFeatures.y p))%float) pairs) acc
  = nan.
Proof.
  induction pairs as [|p l IH]; intros acc (q & Hq & Hy); [by apply elem_of_nil in Hq|].
  simpl. apply elem_of_cons in Hq as [->|Hq].
  - rewrite Hy. simpl. rewrite number_sub_nan_r.
    change (nan * nan)%float with nan. rewrite number_add_nan_r.
    apply sum_squares_from_nan.
  - apply IH. by exists q.
Qed.

Lemma sum_from_nan (l : list JS.number) : fold_left PrimFloat.add l nan = nan.
Proof. induction l as [|d l IH]; simpl; [done|]. by rewrite number_add_nan_l. Qed.

Lemma sum_nan (l : list JS.number) : forall acc,
  nan ∈ l -> fold_left PrimFloat.add l acc = nan.
Proof.
  induction l as [|d l IH]; intros acc Hin; [by apply elem_of_nil in Hin|].
  simpl. apply elem_of_cons in Hin as [<-|Hin]; [|by apply IH].
  rewrite number_add_nan_r. apply sum_from_nan.
Qed.

Lemma distance_feature_short xs ys :
  (length ys < length xs)%nat ->
  FaceFeatures.distance_feature xs (Some ys) = JS.Ok nan.
Proof.
  intros Hlt. unfold FaceFeatures.distance_feature.
  destruct xs as [|x xs]; [simpl in Hlt; lia|].
  cbn [mbind JS.result_bind JS.bind]. rewrite sum_squares_nan; [reflexivity|].
  destruct (lookup_lt_is_Some_2 (x :: xs) (length ys) Hlt) as [v Hv].
  exists (FaceFeatures.mk_xy v None). split; [|done].
  apply elem_of_lookup_imap. exists (length ys), v. split; [|done].
  f_equal. symmetry. by apply lookup_ge_None.
Qed.

(** X11: when the argument has every group of the receiver but one of
    them with fewer values, [distance] does not fail: the missing values
    are read as undefined and the result is NaN. *)
Theorem distance_short_group_is_NaN this features k xs ys :
  length (FaceFeatures.keys this) = length (FaceFeatures.keys features) ->
  (forall k' xs', (k', xs') ∈ this ->
     xs' = [] \/ is_Some (FaceFeatures.get k' features)) ->
  (k, xs) ∈ this ->
  FaceFeatures.get k features = Some ys ->
  (length ys < length xs)%nat ->
  FaceFeatures.distance this (JS.Obj features) = JS.Ok (Some nan).
Proof.
  intros Hlen Hall Hin Hget Hshort.
  unfold FaceFeatures.distance. rewrite Hlen, Nat.eqb_refl. cbn [negb].
  rewrite (mapM_Ok _ (fun '(k', xs') =>
             match FaceFeatures.distance_feature xs' (FaceFeatures.get k' features) with
             | JS.Ok v => v
             | JS.Throw _ => nan
             end)).
  - cbn [mbind JS.result_bind JS.bind]. rewrite sum_nan; [by rewrite number_div_nan_l|].
    apply list_elem_of_fmap. exists (k, xs). split; [|done].
    by rewrite Hget, distance_feature_short.
  - intros [k' xs'] Hin'.
    destruct (distance_feature_Ok xs' (FaceFeatures.get k' features) (Hall k' xs' Hin'))
      as [v ->]. done.
Qed.

Lemma sum_squares_self xs :
  (forall x, x ∈ xs -> is_finite x = true) ->
  fold_left PrimFloat.add (zip_with (fun x y => ((x - y) * (x - y))%float) xs xs) 0%float
  = 0%float.
Proof.
  induction xs as [|x xs IH]; intros Hfin; simpl; [done|].
  rewrite (number_sub_diag x) by (apply Hfin, list_elem_of_here).
  change (0 + 0 * 0)%float with 0%float.
  apply IH. intros y Hy. apply Hfin. by apply list_elem_of_further.
Qed.

Lemma sum_zeros {A} (l : list A) :
  fold_left PrimFloat.add (map (fun _ => 0%float) l) 0%float = 0%float.
Proof. induction l as [|x l IH]; simpl; [done|]. exact IH. Qed.

(** X12: the distance of a feature vector with pairwise distinct keys and
    finite values from itself is zero divided by the number of its groups:
    0 for a vector of one to eight groups (a landmark has eight markers),
    and NaN for the vector without groups. *)
Theorem distance_from_itself this :
  NoDup (FaceFeatures.keys this) ->
  (forall k xs x, (k, xs) ∈ this -> x ∈ xs -> is_finite x = true) ->
  FaceFeatures.distance this (JS.Obj this)
  = JS.Ok (Some (0 / JS.of_length (length this))%float)
  /\ ((0 < length this <= 8)%nat ->
      FaceFeatures.distance this (JS.Obj this) = JS.Ok (Some 0%float))
  /\ (this = [] -> FaceFeatures.distance this (JS.Obj this) = JS.Ok (Some nan)).
Proof.
  intros Hnd Hfin.
  assert (Hd : FaceFeatures.distance this (JS.Obj this)
               = JS.Ok (Some (0 / JS.of_length (length this))%float)).
  { unfold FaceFeatures.distance. rewrite Nat.eqb_refl. cbn [negb].
    rewrite (mapM_Ok _ (fun _ => 0%float)).
    - cbn [mbind JS.result_bind JS.bind]. by rewrite sum_zeros, length_map.
    - intros [k xs] Hin. rewrite (get_elem_NoDup _ _ _ Hnd Hin).
      rewrite distance_feature_same_length by done.
      unfold Spec.euclidean_norm. rewrite sum_squares_self; [done|].
      intros x Hx. by eapply Hfin. }
  split; [done|]. split.
  - intros Hn. by rewrite Hd, zero_over_length.
  - intros ->. reflexivity.
Qed.

Lemma zip_with_sq_sym xs : forall ys,
  zip_with (fun x y => ((x - y) * (x - y))%float) xs ys
  = zip_with (fun x y => ((x - y) * (x - y))%float) ys xs.
Proof.
  induction xs as [|x xs IH]; intros [|y ys]; simpl; try done.
  by rewrite number_sq_diff_sym, IH.
Qed.

Lemma map_eq_Forall2 {A B C} (f : A -> C) (g : B -> C) (l1 : list A) (l2 : list B) :
  Forall2 (fun x y => f x = g y) l1 l2 -> map f l1 = map g l2.
Proof. induction 1 as [|x y l1 l2 Hxy _ IH]; simpl; [done|]. by rewrite Hxy, IH. Qed.

Lemma keys_lookup a i k xs : a !! i = Some (k, xs) -> FaceFeatures.keys a !! i = Some k.
Proof.
  intros H. unfold FaceFeatures.keys. apply list_lookup_fmap_Some. by exists (k, xs).
Qed.

Lemma distance_aligned a b :
  FaceFeatures.keys a = FaceFeatures.keys b ->
  NoDup (FaceFeatures.keys a) ->
  (forall k xs ys, (k, xs) ∈ a -> (k, ys) ∈ b -> length xs = length ys) ->
  FaceFeatures.distance a (JS.Obj b) = FaceFeatures.distance b (JS.Obj a)
  /\ exists d, FaceFeatures.distance a (JS.Obj b) = JS.Ok (Some d).
Proof.
  intros Hkeys Hnd Hlen.
  assert (Hnd' : NoDup (FaceFeatures.keys b)) by by rewrite <- Hkeys.
  assert (Hpair : forall i k xs, a !! i = Some (k, xs) ->
            exists ys, b !! i = Some (k, ys)).
  { intros i k xs Hi. apply keys_lookup in Hi. rewrite Hkeys in Hi.
    apply list_lookup_fmap_Some in Hi as ([k' ys] & -> & Hb). by exists ys. }
  assert (Hpair' : forall i k ys, b !! i = Some (k, ys) ->
            exists xs, a !! i = Some (k, xs)).
  { intros i k ys Hi. apply keys_lookup in Hi. rewrite <- Hkeys in Hi.
    apply list_lookup_fmap_Some in Hi as ([k' xs] & -> & Ha). by exists xs. }
  unfold FaceFeatures.distance. rewrite Hkeys, Nat.eqb_refl. cbn [negb].
  rewrite (mapM_Ok _ (fun '(k, xs) =>
             Spec.euclidean_norm xs (default [] (FaceFeatures.get k b)))).
  2:{ intros [k xs] Hin. pose proof Hin as Hin'.
      apply list_elem_of_lookup in Hin' as [i Hi].
      destruct (Hpair i k xs Hi) as [ys Hys]. apply list_elem_of_lookup_2 in Hys.
      rewrite (get_elem_NoDup _ _ _ Hnd' Hys). simpl.
      apply distance_feature_same_length. by eapply Hlen. }
  rewrite (mapM_Ok _ (fun '(k, ys) =>
             Spec.euclidean_norm ys (default [] (FaceFeatures.get k a)))).
  2:{ intros [k ys] Hin. pose proof Hin as Hin'.
      apply list_elem_of_lookup in Hin' as [i Hi].
      destruct (Hpair' i k ys Hi) as [xs Hxs]. apply list_elem_of_lookup_2 in Hxs.
      rewrite (get_elem_NoDup _ _ _ Hnd Hxs). simpl.
      apply distance_feature_same_length. symmetry. by eapply Hlen. }
  cbn [mbind JS.result_bind JS.bind].
  split; [|by eexists].
  replace (map (fun '(k, ys) => Spec.euclidean_norm ys (default [] (FaceFeatures.get k a))) b)
    with (map (fun '(k, xs) => Spec.euclidean_norm xs (default [] (FaceFeatures.get k b))) a);
    [done|].
  apply map_eq_Forall2. apply Forall2_same_length_lookup_2.
  - apply (f_equal length) in Hkeys. unfold FaceFeatures.keys in Hkeys.
    by rewrite !length_map in Hkeys.
  - intros i [k xs] [k' ys] Hi Hi'.
    destruct (Hpair i k xs Hi) as [ys' Hys].
    pose proof (eq_trans (eq_sym Hys) Hi') as Heq. injection Heq as <- <-.
    rewrite (get_elem_NoDup _ _ _ Hnd' (list_elem_of_lookup_2 _ _ _ Hys)).
    rewrite (get_elem_NoDup _ _ _ Hnd (list_elem_of_lookup_2 _ _ _ Hi)). simpl.
    unfold Spec.euclidean_norm. by rewrite zip_with_sq_sym.
Qed.

(** X13: [distance] is symmetric between two feature vectors with the
    same keys in the same order (pairwise distinct) and groups of the same
    lengths. *)
Theorem distance_symmetric a b :
  FaceFeatures.keys a = FaceFeatures.keys b ->
  NoDup (FaceFeatures.keys a) ->
  (forall k xs ys, (k, xs) ∈ a -> (k, ys) ∈ b -> length xs = length ys) ->
  FaceFeatures.distance a (JS.Obj b) = FaceFeatures.distance b (JS.Obj a).
Proof. intros Hkeys Hnd Hlen. by apply distance_aligned. Qed.

End DistanceMore.


Lemma distance_ignores_the_excess_witness :
  FaceFeatures.distance Examples.lips_short (JS.Obj Examples.lips_long)
  = FaceFeatures.distance Examples.lips_short (JS.Obj Examples.lips_short).
Proof.
  apply distance_ignores_the_excess; [reflexivity|].
  intros k xs Hin. apply list_elem_of_singleton in Hin as [= -> ->]. reflexivity.
Defined.

Lemma distance_short_group_is_NaN_witness :
  FaceFeatures.distance Examples.lips_long (JS.Obj Examples.lips_short)
  = JS.Ok (Some nan).
Proof.
  apply (distance_short_group_is_NaN Examples.lips_long Examples.lips_short
           "lips" [1; 2; 3; 4; 5; 6]%float [1; 2; 3]%float).
  - reflexivity.
  - intros k xs Hin. apply list_elem_of_singleton in Hin as [= -> ->].
    right. by eexists.
  - apply list_elem_of_here.
  - reflexivity.
  - simpl. lia.
Defined.

Lemma distance_from_itself_witness :
  FaceFeatures.distance Examples.deep_features (JS.Obj Examples.deep_features)
  = JS.Ok (Some (0 / JS.of_length (length Examples.deep_features))%float)
  /\ ((0 < length Examples.deep_features <= 8)%nat ->
      FaceFeatures.distance Examples.deep_features (JS.Obj Examples.deep_features)
      = JS.Ok (Some 0%float))
  /\ (Examples.deep_features = [] ->
      FaceFeatures.distance Examples.deep_features (JS.Obj Examples.deep_features)
      = JS.Ok (Some nan)).
Proof.
  apply distance_from_itself.
  - unfold Examples.deep_features. simpl.
    repeat (apply NoDup_cons; split;
            [intros Hin; repeat (apply elem_of_cons in Hin as [Hin|Hin]; [discriminate|]);
             by apply elem_of_nil in Hin|]).
    apply NoDup_nil_2.
  - intros k xs x Hin Hx. unfold Examples.deep_features in Hin.
    apply elem_of_cons in Hin as [Hin|Hin].
    { injection Hin as -> ->.
      repeat (apply elem_of_cons in Hx as [->|Hx]; [reflexivity|]).
      by apply elem_of_nil in Hx. }
    apply elem_of_cons in Hin as [Hin|Hin].
    { injection Hin as -> ->.
      repeat (apply elem_of_cons in Hx as [->|Hx]; [reflexivity|]).
      by apply elem_of_nil in Hx. }
    by apply elem_of_nil in Hin.
Defined.

Lemma distance_symmetric_witness :
  FaceFeatures.distance Examples.deep_features (JS.Obj Examples.deep_features')
  = FaceFeatures.distance Examples.deep_features' (JS.Obj Examples.deep_features).
Proof.
  apply distance_symmetric.
  - reflexivity.
  - unfold Examples.deep_features. simpl.
    repeat (apply NoDup_cons; split;
            [intros Hin; repeat (apply elem_of_cons in Hin as [Hin|Hin]; [discriminate|]);
             by apply elem_of_nil in Hin|]).
    apply NoDup_nil_2.
  - intros k xs ys Hin Hin'. unfold Examples.deep_features in Hin.
    unfold Examples.deep_features' in Hin'.
    apply elem_of_cons in Hin as [Hin|Hin].
    { injection Hin as -> ->.
      apply elem_of_cons in Hin' as [Hin'|Hin']; [by injection Hin' as ->|].
      apply elem_of_cons in Hin' as [Hin'|Hin']; [discriminate|].
      by apply elem_of_nil in Hin'. }
    apply elem_of_cons in Hin as [Hin|Hin].
    { injection Hin as -> ->.
      apply elem_of_cons in Hin' as [Hin'|Hin']; [discriminate|].
      apply elem_of_cons in Hin' as [Hin'|Hin']; [by injection Hin' as ->|].
      by apply elem_of_nil in Hin'. }
    by apply elem_of_nil in Hin.
Defined.

(** ** Feature objects: [add] and [from] *)

Section FeaturesObject.



Lemma set_fresh key v (this : FaceFeatures.t) :
  key ∉ FaceFeatures.keys this -> FaceFeatures.set key v this = this ++ [(key, v)].
Proof.
  induction this as [|[k w] this IH]; simpl; intros Hnot; [done|].
  apply not_elem_of_cons in Hnot as [Hne Hnot].
  destruct (String.eqb_spec k key) as [->|_]; [done|]. by rewrite IH.
Qed.


Lemma keys_app (a b : FaceFeatures.t) :
  FaceFeatures.keys (a ++ b) = FaceFeatures.keys a ++ FaceFeatures.keys b.
Proof. apply map_app. Qed.





End FeaturesObject.


(** ** Landmarks: the constructor and [getFeatures] *)

Section Landmark.

Lemma flatten_fold (l : list Point.t) (acc : list JS.number) :
  fold_left (fun res p => res ++ Point.flatten p) l acc
  = acc ++ concat (map Point.flatten l).
Proof.
  revert acc. induction l as [|p l IH]; intros acc; simpl.
  - by rewrite app_nil_r.
  - rewrite IH. by rewrite <- app_assoc.
Qed.

Lemma Points_flatten_concat (ps : Points.t) :
  Points.flatten ps = concat (map Point.flatten (Points.points ps)).
Proof. unfold Points.flatten. by rewrite flatten_fold. Qed.

Lemma concat_flatten_length (l : list Point.t) :
  length (concat (map Point.flatten l)) = (3 * length l)%nat.
Proof. induction l as [|p l IH]; simpl; [done|]. rewrite IH. lia. Qed.

Lemma normalize_all (p : Point.t) xMin yMin zMin xScale yScale zScale :
  Point.normalize (Point.mk_args (Some xMin) (Some yMin) (Some zMin)
                     (Some xScale) (Some yScale) (Some zScale)) p
  = {| Point.name := Point.name p;
       Point.x := ((Point.x p - xMin) * xScale)%float;
       Point.y := ((Point.y p - yMin) * yScale)%float;
       Point.z := ((Point.z p - zMin) * zScale)%float;
       Point.orig := Some (Point.mk_orig (Some (Point.x p - xMin)%float)
                             (Some (Point.y p - yMin)%float)
                             (Some (Point.z p - zMin)%float)) |}.
Proof. destruct p as [n x y z [[ox oy oz]|]]; reflexivity. Qed.

(** X16. The constructor of [FaceLandmark] keeps the keypoints' number,
    order and names and rewrites every coordinate: [x] and [y] are shifted
    by the box origin and multiplied by [1 / width] and [1 / height], [z] is
    shifted by the least depth of the keypoints and multiplied by
    [1 / |zMax - zMin|]. Since each coordinate is rewritten twice, [orig]
    ends up with the shifted coordinate, not with the one delivered. *)
Theorem constructor_normalizes_keypoints (d : FaceLandmark.detected) :
  Points.points (FaceLandmark.points (FaceLandmark.new d))
  = map (fun k =>
           let b := FaceLandmark.d_box d in
           let zMin := JS.Math_min (map Point.kp_z (FaceLandmark.d_keypoints d)) in
           let zMax := JS.Math_max (map Point.kp_z (FaceLandmark.d_keypoints d)) in
           {| Point.name := Point.kp_name k;
              Point.x := ((Point.kp_x k - FaceLandmark.xMin b)
                          * (1 / FaceLandmark.width b))%float;
              Point.y := ((Point.kp_y k - FaceLandmark.yMin b)
                          * (1 / FaceLandmark.height b))%float;
              Point.z := ((Point.kp_z k - zMin) * (1 / abs (zMax - zMin)))%float;
              Point.orig :=
                Some (Point.mk_orig (Some (Point.kp_x k - FaceLandmark.xMin b)%float)
                        (Some (Point.kp_y k - FaceLandmark.yMin b)%float)
                        (Some (Point.kp_z k - zMin)%float)) |})
        (FaceLandmark.d_keypoints d).
Proof.
  unfold FaceLandmark.new. cbn [FaceLandmark.points].
  unfold Points.normalize, Points.from, Points.new. cbn [Points.points].
  rewrite map_map. apply map_ext. intros k.
  unfold FaceLandmark.normalize_args. rewrite normalize_all.
  unfold Points.getMin, Points.getMax. cbn [Points.points].
  rewrite !map_map. reflexivity.
Qed.

Lemma named_fold (ps : Points.t) (ks : list string) (acc : list (string * Points.t)) :
  fold_left (fun acc key =>
               let points := Points.getNamed key ps in
               match points with
               | [] => acc
               | _ :: _ => acc ++ [(key, Points.new points)]
               end) ks acc
  = acc ++ omap (fun key => match Points.getNamed key ps with
                            | [] => None
                            | p :: l => Some (key, Points.new (p :: l))
                            end) ks.
Proof.
  revert acc. induction ks as [|k ks IH]; intros acc; simpl.
  - by rewrite app_nil_r.
  - rewrite IH. destruct (Points.getNamed k ps); [done|].
    by rewrite <- app_assoc.
Qed.

Lemma get_named (ps : Points.t) (key : string) (ks : list string) :
  FaceLandmark.get key
    (omap (fun key => match Points.getNamed key ps with
                      | [] => None
                      | p :: l => Some (key, Points.new (p :: l))
                      end) ks)
  = if existsb (String.eqb key) ks
    then match Points.getNamed key ps with
         | [] => None
         | p :: l => Some (Points.new (p :: l))
         end
    else None.
Proof.
  induction ks as [|k ks IH]; simpl; [done|].
  destruct (String.eqb_spec key k) as [->|Hne]; simpl.
  - destruct (Points.getNamed k ps) eqn:Hk; simpl.
    + etrans; [exact IH|]. by destruct (existsb _ _).
    + by rewrite String.eqb_refl.
  - destruct (Points.getNamed k ps) eqn:Hk; simpl; [done|].
    destruct (String.eqb_spec k key) as [->|_]; [done|]. exact IH.
Qed.

Lemma features_fold (named : list (string * Points.t)) (ms : list (string * bool))
    (acc : FaceFeatures.t) :
  NoDup (FaceFeatures.keys acc ++ map fst ms) ->
  fold_left (fun feat '(key, isFeature) =>
               match isFeature, FaceLandmark.get key named with
               | true, Some ps => FaceFeatures.add key (inl ps) feat
               | _, _ => feat
               end) ms acc
  = acc ++ omap (fun '(key, isFeature) =>
                   match isFeature, FaceLandmark.get key named with
                   | true, Some ps => Some (key, Points.flatten ps)
                   | _, _ => None
                   end) ms.
Proof.
  revert acc. induction ms as [|[k b] ms IH]; intros acc Hnd; simpl.
  - by rewrite app_nil_r.
  - assert (Hk : k ∉ FaceFeatures.keys acc).
    { apply NoDup_app in Hnd as (_ & Hdisj & _). intros Hk.
      apply (Hdisj k Hk). simpl. apply list_elem_of_here. }
    assert (Hacc : NoDup (FaceFeatures.keys acc ++ map fst ms)).
    { simpl in Hnd. apply NoDup_app in Hnd as (Ha & Hdisj & Hms).
      apply NoDup_app. split; [done|]. split.
      - intros x Hx Hx'. apply (Hdisj x Hx). by apply list_elem_of_further.
      - by apply NoDup_cons in Hms as [_ ?]. }
    destruct b, (FaceLandmark.get k named) as [ps|]; try (by apply IH).
    unfold FaceFeatures.add at 2. rewrite set_fresh by done.
    rewrite IH.
    + by rewrite <- app_assoc.
    + rewrite keys_app, <- app_assoc. exact Hnd.
Qed.

Lemma keys_omap_sublist (g : string -> option (string * list JS.number))
    (ks : list string) :
  (forall k x, g k = Some x -> fst x = k) ->
  sublist (FaceFeatures.keys (omap g ks)) ks.
Proof.
  intros Hg. induction ks as [|k ks IH]; simpl; [constructor|].
  destruct (g k) as [x|] eqn:Hk; simpl.
  - rewrite (Hg _ _ Hk). by apply sublist_skip.
  - by apply sublist_cons.
Qed.

Lemma getNamed_normalize (key : string) (a : Point.args) (ps : Points.t) :
  length (Points.getNamed key (Points.normalize a ps))
  = length (Points.getNamed key ps).
Proof.
  unfold Points.getNamed, Points.normalize. cbn [Points.points].
  induction (Points.points ps) as [|p l IH]; simpl; [done|].
  replace (Point.name (Point.normalize a p)) with (Point.name p).
  - destruct (Point.name p) as [n|]; [destruct (String.eqb n key)|]; simpl; by rewrite ?IH.
  - unfold Point.normalize. simpl.
    destruct p as [n x y z o]. unfold Point.f.
    by destruct (Point.xMin a), (Point.yMin a), (Point.zMin a),
         (Point.xScale a), (Point.yScale a), (Point.zScale a).
Qed.

Lemma feature_keys_NoDup : NoDup Spec.feature_keys.
Proof.
  unfold Spec.feature_keys.
  repeat (apply NoDup_cons; split;
    [intros Hin; repeat (apply elem_of_cons in Hin as [Hin|Hin]; [discriminate|]);
     by apply elem_of_nil in Hin|]).
  apply NoDup_nil_2.
Qed.

(** The feature vector of a landmark the constructor built, in closed
    form. *)
Lemma getFeatures_new (d : FaceLandmark.detected) :
  snd (FaceLandmark.getFeatures (FaceLandmark.new d))
  = omap (fun key =>
            match Points.getNamed key (FaceLandmark.points (FaceLandmark.new d)) with
            | [] => None
            | p :: l => Some (key, concat (map Point.flatten (p :: l)))
            end) Spec.feature_keys.
Proof.
  unfold FaceLandmark.getFeatures.
  change (FaceLandmark.features (FaceLandmark.new d)) with (@None FaceFeatures.t).
  cbn [snd]. rewrite features_fold.
  2:{ simpl. repeat (apply NoDup_cons; split;
        [intros Hin; repeat (apply elem_of_cons in Hin as [Hin|Hin]; [discriminate|]);
         by apply elem_of_nil in Hin|]).
      apply NoDup_nil_2. }
  assert (Hnamed : FaceLandmark.named (FaceLandmark.new d)
                   = omap (fun key =>
                             match Points.getNamed key
                                     (FaceLandmark.points (FaceLandmark.new d)) with
                             | [] => None
                             | p :: l => Some (key, Points.new (p :: l))
                             end) (map fst FaceLandmark.markers)).
  { unfold FaceLandmark.new. cbn [FaceLandmark.named FaceLandmark.points].
    by rewrite named_fold. }
  assert (Hget : forall key,
             FaceLandmark.get key (FaceLandmark.named (FaceLandmark.new d))
             = if existsb (String.eqb key) (map fst FaceLandmark.markers)
               then match Points.getNamed key
                            (FaceLandmark.points (FaceLandmark.new d)) with
                    | [] => None
                    | p :: l => Some (Points.new (p :: l))
                    end
               else None).
  { intros key. rewrite Hnamed. apply get_named. }
  clear Hnamed. cbn [app].
  generalize dependent (FaceLandmark.named (FaceLandmark.new d)). intros nm Hget.
  unfold FaceLandmark.markers at 1. cbn [omap list_omap].
  rewrite !Hget. clear Hget nm.
  unfold FaceLandmark.markers.
  cbn [map fst existsb String.eqb Ascii.eqb Bool.eqb orb andb].
  unfold Spec.feature_keys. cbn [omap list_omap].
  generalize (FaceLandmark.points (FaceLandmark.new d)). intros ps.
  destruct (Points.getNamed "leftEye" ps), (Points.getNamed "leftIris" ps),
    (Points.getNamed "lips" ps), (Points.getNamed "rightEye" ps),
    (Points.getNamed "rightIris" ps);
    rewrite ?Points_flatten_concat; reflexivity.
Qed.

Lemma features_keys_sublist (d : FaceLandmark.detected) :
  sublist (FaceFeatures.keys (snd (FaceLandmark.getFeatures (FaceLandmark.new d))))
    Spec.feature_keys.
Proof.
  rewrite getFeatures_new. apply keys_omap_sublist.
  intros k x. destruct (Points.getNamed k _); [done|]. by intros [= <-].
Qed.

Lemma features_keys_NoDup (d : FaceLandmark.detected) :
  NoDup (FaceFeatures.keys (snd (FaceLandmark.getFeatures (FaceLandmark.new d)))).
Proof.
  eapply sublist_NoDup; [apply feature_keys_NoDup | apply features_keys_sublist].
Qed.

Lemma features_entry (d : FaceLandmark.detected) key xs :
  (key, xs) ∈ snd (FaceLandmark.getFeatures (FaceLandmark.new d)) ->
  key ∈ Spec.feature_keys
  /\ xs <> []
  /\ length xs
     = (3 * length (Points.getNamed key (Points.from (FaceLandmark.d_keypoints d))))%nat.
Proof.
  rewrite getFeatures_new. intros Hin.
  apply list_elem_of_omap in Hin as (k & Hk_in & Hk).
  destruct (Points.getNamed k (FaceLandmark.points (FaceLandmark.new d)))
    as [|p l] eqn:Hnamed; [done|].
  injection Hk as <- <-. split; [done|]. split; [done|].
  etrans; [exact (concat_flatten_length (p :: l))|]. rewrite <- Hnamed.
  unfold FaceLandmark.new. cbn [FaceLandmark.points].
  by rewrite getNamed_normalize.
Qed.

(** X17. The feature vector of a landmark built by the constructor: one
    group for each of [leftEye], [leftIris], [lips], [rightEye],
    [rightIris] (the markers flagged [true], in this order) that has at
    least one keypoint of that name, holding the normalized [x, y, z] of
    those keypoints one after the other. So the keys are pairwise distinct,
    a group is never empty, and its length is three times the number of
    keypoints of its name. A second call of [getFeatures] returns the
    vector of the first. *)
Theorem features_of_a_landmark (d : FaceLandmark.detected) :
  snd (FaceLandmark.getFeatures (FaceLandmark.new d))
  = omap (fun key =>
            match Points.getNamed key (FaceLandmark.points (FaceLandmark.new d)) with
            | [] => None
            | p :: l => Some (key, concat (map Point.flatten (p :: l)))
            end) Spec.feature_keys
  /\ Spec.feature_keys
     = map fst (List.filter snd FaceLandmark.markers)
  /\ sublist (FaceFeatures.keys (snd (FaceLandmark.getFeatures (FaceLandmark.new d))))
       Spec.feature_keys
  /\ NoDup (FaceFeatures.keys (snd (FaceLandmark.getFeatures (FaceLandmark.new d))))
  /\ (forall key xs,
        FaceFeatures.get key (snd (FaceLandmark.getFeatures (FaceLandmark.new d)))
        = Some xs ->
        xs <> []
        /\ length xs
           = (3 * length (Points.getNamed key
                            (Points.from (FaceLandmark.d_keypoints d))))%nat)
  /\ FaceLandmark.getFeatures (fst (FaceLandmark.getFeatures (FaceLandmark.new d)))
     = FaceLandmark.getFeatures (FaceLandmark.new d).
Proof.
  split; [apply getFeatures_new|]. split; [reflexivity|].
  split; [apply features_keys_sublist|]. split; [apply features_keys_NoDup|].
  split.
  { intros key xs Hget. apply get_Some_elem in Hget.
    by apply features_entry in Hget as (_ & ? & ?). }
  unfold FaceLandmark.getFeatures.
  change (FaceLandmark.features (FaceLandmark.new d)) with (@None FaceFeatures.t).
  reflexivity.
Qed.

Lemma keys_omap_ext (g1 g2 : string -> option (string * list JS.number))
    (ks : list string) :
  (forall k x, g1 k = Some x -> fst x = k) ->
  (forall k x, g2 k = Some x -> fst x = k) ->
  (forall k, k ∈ ks -> g1 k = None <-> g2 k = None) ->
  FaceFeatures.keys (omap g1 ks) = FaceFeatures.keys (omap g2 ks).
Proof.
  intros H1 H2. unfold FaceFeatures.keys.
  induction ks as [|k ks IH]; intros Hsame; simpl; [done|].
  assert (IH' : map fst (omap g1 ks) = map fst (omap g2 ks)).
  { apply IH. intros k' Hk'. apply Hsame. by apply list_elem_of_further. }
  pose proof (Hsame k (list_elem_of_here _ _)) as Hk.
  destruct (g1 k) as [x1|] eqn:Hg1, (g2 k) as [x2|] eqn:Hg2; simpl.
  - f_equal; [|exact IH']. by rewrite (H1 _ _ Hg1), (H2 _ _ Hg2).
  - by destruct Hk as [_ Hk]; specialize (Hk eq_refl).
  - by destruct Hk as [Hk _]; specialize (Hk eq_refl).
  - exact IH'.
Qed.

(** X18. Two landmarks with equally many keypoints of each feature name,
    as two detections of one model are, compare to a number, and to the
    same number in either direction. *)
Theorem compare_symmetric (d1 d2 : FaceLandmark.detected) :
  (forall key, key ∈ Spec.feature_keys ->
     length (Points.getNamed key (Points.from (FaceLandmark.d_keypoints d1)))
     = length (Points.getNamed key (Points.from (FaceLandmark.d_keypoints d2)))) ->
  exists dist,
    (FaceLandmark.compare (FaceLandmark.new d1) (JS.Obj (FaceLandmark.new d2))).2
    = JS.Ok (Some dist)
    /\ (FaceLandmark.compare (FaceLandmark.new d2) (JS.Obj (FaceLandmark.new d1))).2
       = JS.Ok (Some dist).
Proof.
  intros Hcount.
  set (f1 := snd (FaceLandmark.getFeatures (FaceLandmark.new d1))).
  set (f2 := snd (FaceLandmark.getFeatures (FaceLandmark.new d2))).
  assert (H12 : (FaceLandmark.compare (FaceLandmark.new d1)
                   (JS.Obj (FaceLandmark.new d2))).2
                = FaceFeatures.distance f1 (JS.Obj f2)).
  { unfold FaceLandmark.compare, f1, f2.
    destruct (FaceLandmark.getFeatures (FaceLandmark.new d1)).
    by destruct (FaceLandmark.getFeatures (FaceLandmark.new d2)). }
  assert (H21 : (FaceLandmark.compare (FaceLandmark.new d2)
                   (JS.Obj (FaceLandmark.new d1))).2
                = FaceFeatures.distance f2 (JS.Obj f1)).
  { unfold FaceLandmark.compare, f1, f2.
    destruct (FaceLandmark.getFeatures (FaceLandmark.new d2)).
    by destruct (FaceLandmark.getFeatures (FaceLandmark.new d1)). }
  rewrite H12, H21.
  assert (Hnamed : forall d key,
            length (Points.getNamed key (FaceLandmark.points (FaceLandmark.new d)))
            = length (Points.getNamed key (Points.from (FaceLandmark.d_keypoints d)))).
  { intros d key. unfold FaceLandmark.new. cbn [FaceLandmark.points].
    apply getNamed_normalize. }
  destruct (distance_aligned f1 f2) as [Hsym [dist Hdist]].
  - unfold f1, f2. rewrite !getFeatures_new. apply keys_omap_ext.
    + intros k x. destruct (Points.getNamed k _); [done|]. by intros [= <-].
    + intros k x. destruct (Points.getNamed k _); [done|]. by intros [= <-].
    + intros k Hk. pose proof (Hcount k Hk) as Hc.
      rewrite <- !Hnamed in Hc.
      destruct (Points.getNamed k (FaceLandmark.points (FaceLandmark.new d1))),
        (Points.getNamed k (FaceLandmark.points (FaceLandmark.new d2)));
        simpl in Hc; try done.
  - apply features_keys_NoDup.
  - intros k xs ys Hx Hy.
    apply features_entry in Hx as (Hk & _ & ->).
    apply features_entry in Hy as (_ & _ & ->). by rewrite (Hcount k Hk).
  - exists dist. split; [done|]. by rewrite <- Hsym.
Qed.

End Landmark.

(** ** Least and greatest coordinates *)

Section NumberBounds.

Lemma is_nan_sf (a : JS.number) : is_nan a = false -> Prim2SF a <> S754_nan.
Proof.
  unfold is_nan. rewrite FloatAxioms.eqb_spec. intros H Hnan. by rewrite Hnan in H.
Qed.

Lemma is_nan_eq (a : JS.number) : is_nan a = true -> a = nan.
Proof.
  unfold is_nan. rewrite FloatAxioms.eqb_spec. unfold SFeqb. intros H.
  apply Prim2SF_inj. change (Prim2SF nan) with S754_nan.
  destruct (Prim2SF a) as [s|s| |s m e]; simpl in H; try done.
  - by destruct s.
  - destruct s; rewrite Z.compare_refl, Pos.compare_cont_refl in H; done.
Qed.

Lemma number_mul_nan_l (a : JS.number) : (nan * a)%float = nan.
Proof.
  apply Prim2SF_inj. rewrite FloatAxioms.mul_spec. change (Prim2SF nan) with S754_nan.
  reflexivity.
Qed.

Lemma SFltb_false_trans (a b c : spec_float) :
  a <> S754_nan -> b <> S754_nan -> c <> S754_nan ->
  SFltb a b = false -> SFltb b c = false -> SFltb a c = false.
Proof.
  unfold SFltb.
  destruct a as [sa|sa| |sa ma ea], b as [sb|sb| |sb mb eb], c as [sc|sc| |sc mc ec];
    simpl; try done; intros _ _ _;
    try (destruct sa; simpl; try discriminate; try reflexivity);
    try (destruct sb; simpl; try discriminate; try reflexivity);
    try (destruct sc; simpl; try discriminate; try reflexivity);
    change (Pos.compare_cont Eq) with Pos.compare;
    repeat match goal with
           | |- context [Z.compare ?x ?y] => destruct (Z.compare_spec x y)
           end;
    repeat match goal with
           | |- context [Pos.compare ?x ?y] => destruct (Pos.compare_spec x y)
           end;
    simpl; try discriminate; try reflexivity; intros; exfalso; lia.
Qed.

(** Among numbers, "not below" is transitive. *)
Lemma number_not_lt_trans (a b c : JS.number) :
  is_nan a = false -> is_nan b = false -> is_nan c = false ->
  (a <? b)%float = false -> (b <? c)%float = false -> (a <? c)%float = false.
Proof.
  intros Ha Hb Hc. rewrite !FloatAxioms.ltb_spec.
  apply SFltb_false_trans; by apply is_nan_sf.
Qed.

Lemma number_lt_asym (a b : JS.number) :
  (a <? b)%float = true -> (b <? a)%float = false.
Proof.
  rewrite !FloatAxioms.ltb_spec. unfold SFltb.
  rewrite (SFcompare_antisym (Prim2SF a) (Prim2SF b)).
  by destruct (SFcompare (Prim2SF a) (Prim2SF b)) as [[]|].
Qed.

Lemma zeros_not_lt (a b : JS.number) :
  JS.is_pos_zero a = true -> JS.is_neg_zero b = true -> (a <? b)%float = false.
Proof.
  unfold JS.is_pos_zero, JS.is_neg_zero.
  rewrite !FloatAxioms.classify_spec, FloatAxioms.ltb_spec.
  unfold SF64classify, SFclassify.
  destruct (Prim2SF a) as [[]|[]| |[] ma ea], (Prim2SF b) as [[]|[]| |[] mb eb];
    intros Ha Hb; try reflexivity; try discriminate;
    repeat case_match; discriminate.
Qed.

Lemma not_lt_infinity (v : JS.number) :
  is_nan v = false -> (v <? infinity)%float = false -> v = infinity.
Proof.
  intros Hv. apply is_nan_sf in Hv. rewrite FloatAxioms.ltb_spec. intros H.
  apply Prim2SF_inj. change (Prim2SF infinity) with (S754_infinity false).
  destruct (Prim2SF v) as [s|[]| |[] m e]; done.
Qed.

Lemma not_gt_neg_infinity (v : JS.number) :
  is_nan v = false -> (neg_infinity <? v)%float = false -> v = neg_infinity.
Proof.
  intros Hv. apply is_nan_sf in Hv. rewrite FloatAxioms.ltb_spec. intros H.
  apply Prim2SF_inj. change (Prim2SF neg_infinity) with (S754_infinity true).
  destruct (Prim2SF v) as [s|[]| |[] m e]; done.
Qed.

Lemma Math_min_from_bound (l : list JS.number) (lowest : JS.number) :
  is_nan lowest = false ->
  (forall v, v ∈ l -> is_nan v = false) ->
  is_nan (JS.Math_min_from lowest l) = false
  /\ (JS.Math_min_from lowest l = lowest \/ JS.Math_min_from lowest l ∈ l)
  /\ (lowest <? JS.Math_min_from lowest l)%float = false
  /\ forall v, v ∈ l -> (v <? JS.Math_min_from lowest l)%float = false.
Proof.
  revert lowest. induction l as [|n l IH]; intros lowest Hlow Hall; simpl.
  - split; [done|]. split; [by left|]. split; [apply number_lt_irrefl|].
    intros v Hv. by apply elem_of_nil in Hv.
  - assert (Hn : is_nan n = false) by apply Hall, list_elem_of_here.
    rewrite Hn.
    set (lowest1 := if JS.is_neg_zero n && JS.is_pos_zero lowest then n else lowest).
    set (new := if (n <? lowest1)%float then n else lowest1).
    assert (Hnew_nan : is_nan new = false).
    { unfold new, lowest1. by repeat case_match. }
    assert (Hnew_mem : new = lowest \/ new = n).
    { unfold new, lowest1. repeat case_match; auto. }
    assert (Hlow_new : (lowest <? new)%float = false).
    { unfold new, lowest1.
      destruct (JS.is_neg_zero n && JS.is_pos_zero lowest) eqn:Hz.
      - apply andb_true_iff in Hz as [Hz1 Hz2].
        case_match; by apply zeros_not_lt.
      - destruct (n <? lowest)%float eqn:Hlt;
          [by apply number_lt_asym | apply number_lt_irrefl]. }
    assert (Hn_new : (n <? new)%float = false).
    { unfold new. destruct (n <? lowest1)%float eqn:Hlt; [apply number_lt_irrefl | done]. }
    destruct (IH new Hnew_nan) as (Hr & Hmem & Hnew_r & Hrest).
    { intros v Hv. apply Hall. by apply list_elem_of_further. }
    split; [done|]. split.
    { destruct Hmem as [->|Hmem].
      - destruct Hnew_mem as [->| ->]; [by left | right; apply list_elem_of_here].
      - right. by apply list_elem_of_further. }
    split.
    { by apply (number_not_lt_trans _ new). }
    intros v Hv. apply elem_of_cons in Hv as [->|Hv]; [|by apply Hrest].
    by apply (number_not_lt_trans _ new).
Qed.

Lemma Math_max_from_bound (l : list JS.number) (highest : JS.number) :
  is_nan highest = false ->
  (forall v, v ∈ l -> is_nan v = false) ->
  is_nan (JS.Math_max_from highest l) = false
  /\ (JS.Math_max_from highest l = highest \/ JS.Math_max_from highest l ∈ l)
  /\ (JS.Math_max_from highest l <? highest)%float = false
  /\ forall v, v ∈ l -> (JS.Math_max_from highest l <? v)%float = false.
Proof.
  revert highest. induction l as [|n l IH]; intros highest Hhigh Hall; simpl.
  - split; [done|]. split; [by left|]. split; [apply number_lt_irrefl|].
    intros v Hv. by apply elem_of_nil in Hv.
  - assert (Hn : is_nan n = false) by apply Hall, list_elem_of_here.
    rewrite Hn.
    set (highest1 := if JS.is_pos_zero n && JS.is_neg_zero highest then n else highest).
    set (new := if (highest1 <? n)%float then n else highest1).
    assert (Hnew_nan : is_nan new = false).
    { unfold new, highest1. by repeat case_match. }
    assert (Hnew_mem : new = highest \/ new = n).
    { unfold new, highest1. repeat case_match; auto. }
    assert (Hnew_high : (new <? highest)%float = false).
    { unfold new, highest1.
      destruct (JS.is_pos_zero n && JS.is_neg_zero highest) eqn:Hz.
      - apply andb_true_iff in Hz as [Hz1 Hz2].
        case_match; by apply zeros_not_lt.
      - destruct (highest <? n)%float eqn:Hlt;
          [by apply number_lt_asym | apply number_lt_irrefl]. }
    assert (Hnew_n : (new <? n)%float = false).
    { unfold new. destruct (highest1 <? n)%float eqn:Hlt; [apply number_lt_irrefl | done]. }
    destruct (IH new Hnew_nan) as (Hr & Hmem & Hr_new & Hrest).
    { intros v Hv. apply Hall. by apply list_elem_of_further. }
    split; [done|]. split.
    { destruct Hmem as [->|Hmem].
      - destruct Hnew_mem as [->| ->]; [by left | right; apply list_elem_of_here].
      - right. by apply list_elem_of_further. }
    split.
    { by apply (number_not_lt_trans _ new). }
    intros v Hv. apply elem_of_cons in Hv as [->|Hv]; [|by apply Hrest].
    by apply (number_not_lt_trans _ new).
Qed.

Lemma Math_min_from_nan (l : list JS.number) (lowest : JS.number) :
  (exists v, v ∈ l /\ is_nan v = true) -> JS.Math_min_from lowest l = nan.
Proof.
  revert lowest. induction l as [|n l IH]; intros lowest (v & Hv & Hnan).
  - by apply elem_of_nil in Hv.
  - simpl. destruct (is_nan n) eqn:Hn; [done|]. apply IH.
    apply elem_of_cons in Hv as [->|Hv]; [congruence|]. by exists v.
Qed.

Lemma Math_max_from_nan (l : list JS.number) (highest : JS.number) :
  (exists v, v ∈ l /\ is_nan v = true) -> JS.Math_max_from highest l = nan.
Proof.
  revert highest. induction l as [|n l IH]; intros highest (v & Hv & Hnan).
  - by apply elem_of_nil in Hv.
  - simpl. destruct (is_nan n) eqn:Hn; [done|]. apply IH.
    apply elem_of_cons in Hv as [->|Hv]; [congruence|]. by exists v.
Qed.

(** X19. For a non-empty collection of points none of whose [axis]
    coordinates is NaN, [getMin(axis)] and [getMax(axis)] are coordinates
    of points of the collection, no point lies below the first and none
    above the second. *)
Theorem getMin_getMax_bound (k : Point.key) (ps : Points.t) :
  Points.points ps <> [] ->
  (forall p, p ∈ Points.points ps -> is_nan (Point.get k p) = false) ->
  (exists p, p ∈ Points.points ps /\ Point.get k p = Points.getMin k ps)
  /\ (exists p, p ∈ Points.points ps /\ Point.get k p = Points.getMax k ps)
  /\ forall p, p ∈ Points.points ps ->
       (Point.get k p <? Points.getMin k ps)%float = false
       /\ (Points.getMax k ps <? Point.get k p)%float = false.
Proof.
  intros Hne Hall. unfold Points.getMin, Points.getMax, JS.Math_min, JS.Math_max.
  set (l := map (Point.get k) (Points.points ps)).
  assert (Hl : forall v, v ∈ l -> is_nan v = false).
  { intros v Hv. apply list_elem_of_fmap in Hv as (p & -> & Hp). by apply Hall. }
  assert (Hhead : exists v, v ∈ l).
  { unfold l. destruct (Points.points ps) as [|p l']; [done|].
    exists (Point.get k p). apply list_elem_of_here. }
  destruct (Math_min_from_bound l infinity eq_refl Hl) as (_ & Hmin & _ & Hlow).
  destruct (Math_max_from_bound l neg_infinity eq_refl Hl) as (_ & Hmax & _ & Hhigh).
  assert (Hmin' : JS.Math_min_from infinity l ∈ l).
  { destruct Hmin as [Heq|]; [|done]. destruct Hhead as (v & Hv).
    pose proof (Hlow v Hv) as Hlt. rewrite Heq in Hlt |- *.
    by rewrite <- (not_lt_infinity v (Hl v Hv) Hlt). }
  assert (Hmax' : JS.Math_max_from neg_infinity l ∈ l).
  { destruct Hmax as [Heq|]; [|done]. destruct Hhead as (v & Hv).
    pose proof (Hhigh v Hv) as Hlt. rewrite Heq in Hlt |- *.
    by rewrite <- (not_gt_neg_infinity v (Hl v Hv) Hlt). }
  split.
  { apply list_elem_of_fmap in Hmin' as (p & Heq & Hp). by exists p. }
  split.
  { apply list_elem_of_fmap in Hmax' as (p & Heq & Hp). by exists p. }
  intros p Hp.
  assert (Hin : Point.get k p ∈ l) by (apply list_elem_of_fmap; by exists p).
  split; [by apply Hlow | by apply Hhigh].
Qed.

(** X20. One keypoint whose depth is NaN spoils the depth of the whole
    landmark: the least and the greatest depth the constructor computes are
    NaN, and so is the normalized [z] of every point. *)
Theorem nan_depth_poisons_landmark (d : FaceLandmark.detected) :
  (exists k, k ∈ FaceLandmark.d_keypoints d /\ is_nan (Point.kp_z k) = true) ->
  Points.getMin Point.kz (Points.from (FaceLandmark.d_keypoints d)) = nan
  /\ Points.getMax Point.kz (Points.from (FaceLandmark.d_keypoints d)) = nan
  /\ forall p, p ∈ Points.points (FaceLandmark.points (FaceLandmark.new d)) ->
       Point.z p = nan.
Proof.
  intros (k & Hk & Hnan).
  assert (Hex : exists v, v ∈ map (Point.get Point.kz)
                               (Points.points (Points.from (FaceLandmark.d_keypoints d)))
                          /\ is_nan v = true).
  { exists (Point.kp_z k). split; [|done].
    unfold Points.from, Points.new. cbn [Points.points].
    apply list_elem_of_fmap. exists (Point.from k). split; [done|].
    apply list_elem_of_fmap. by exists k. }
  assert (Hmin : Points.getMin Point.kz (Points.from (FaceLandmark.d_keypoints d)) = nan).
  { by apply Math_min_from_nan. }
  assert (Hmax : Points.getMax Point.kz (Points.from (FaceLandmark.d_keypoints d)) = nan).
  { by apply Math_max_from_nan. }
  split; [done|]. split; [done|].
  intros p Hp. unfold FaceLandmark.new in Hp. cbn [FaceLandmark.points] in Hp.
  unfold Points.normalize in Hp. cbn [Points.points] in Hp.
  apply list_elem_of_fmap in Hp as (p0 & -> & Hp0).
  erewrite normalize_z; [|unfold FaceLandmark.normalize_args; reflexivity].
  rewrite Hmin, number_sub_nan_r. apply number_mul_nan_l.
Qed.

End NumberBounds.

Lemma getMin_getMax_bound_witness :
  (exists p, p ∈ Points.points (Points.from (FaceLandmark.d_keypoints Examples.deep_face))
             /\ Point.get Point.kz p
                = Points.getMin Point.kz
                    (Points.from (FaceLandmark.d_keypoints Examples.deep_face)))
  /\ (exists p, p ∈ Points.points (Points.from (FaceLandmark.d_keypoints Examples.deep_face))
                /\ Point.get Point.kz p
                   = Points.getMax Point.kz
                       (Points.from (FaceLandmark.d_keypoints Examples.deep_face)))
  /\ forall p, p ∈ Points.points (Points.from (FaceLandmark.d_keypoints Examples.deep_face)) ->
       (Point.get Point.kz p
        <? Points.getMin Point.kz
             (Points.from (FaceLandmark.d_keypoints Examples.deep_face)))%float = false
       /\ (Points.getMax Point.kz
             (Points.from (FaceLandmark.d_keypoints Examples.deep_face))
           <? Point.get Point.kz p)%float = false.
Proof.
  apply getMin_getMax_bound.
  - discriminate.
  - intros p Hp. simpl in Hp.
    repeat (apply elem_of_cons in Hp as [->|Hp]; [reflexivity|]).
    by apply elem_of_nil in Hp.
Defined.

Lemma nan_depth_poisons_landmark_witness :
  Points.getMin Point.kz (Points.from (FaceLandmark.d_keypoints Examples.nan_face)) = nan
  /\ Points.getMax Point.kz (Points.from (FaceLandmark.d_keypoints Examples.nan_face)) = nan
  /\ forall p, p ∈ Points.points (FaceLandmark.points (FaceLandmark.new Examples.nan_face)) ->
       Point.z p = nan.
Proof.
  apply nan_depth_poisons_landmark.
  exists (Point.mk_keypoint (Some "lips"%string) 4%float 6%float nan). split; [|reflexivity].
  simpl. apply list_elem_of_further, list_elem_of_here.
Defined.

(** ** Serialization of points *)

Section Serialization.

(** X21. [toJSON] and [from] are inverse on keypoints: serializing the
    points built from keypoints gives the keypoints back, and rebuilding
    points from their serialization keeps every name and coordinate, hence
    the flattened coordinates, and drops only [orig]. *)
Theorem toJSON_round_trip :
  (forall ks, Points.toJSON (Points.from ks) = ks)
  /\ (forall ps,
        Points.points (Points.from (Points.toJSON ps))
        = map (fun p => Point.mk (Point.name p) (Point.x p) (Point.y p) (Point.z p) None)
            (Points.points ps))
  /\ (forall ps, Points.flatten (Points.from (Points.toJSON ps)) = Points.flatten ps)
  /\ (forall a ps,
        map Point.kp_name (Points.toJSON (Points.normalize a ps))
        = map Point.kp_name (Points.toJSON ps)).
Proof.
  split.
  { intros ks. unfold Points.toJSON, Points.from, Points.new. cbn [Points.points].
    rewrite map_map. etrans; [|apply map_id]. apply map_ext. by intros []. }
  split.
  { intros ps. unfold Points.toJSON, Points.from, Points.new. cbn [Points.points].
    by rewrite map_map. }
  split.
  { intros ps. rewrite !Points_flatten_concat.
    unfold Points.toJSON, Points.from, Points.new. cbn [Points.points].
    by rewrite !map_map. }
  intros a ps. unfold Points.toJSON, Points.normalize. cbn [Points.points].
  rewrite !map_map. apply map_ext. intros p.
  unfold Point.toJSON. cbn [Point.kp_name].
  unfold Point.normalize. simpl. destruct p as [n x y z o]. unfold Point.f.
  by destruct (Point.xMin a), (Point.yMin a), (Point.zMin a),
       (Point.xScale a), (Point.yScale a), (Point.zScale a).
Qed.

End Serialization.

(** ** The payload of a command *)

Section Payload.

Lemma fill_spec (units : list Z) (i : nat) (buff : list Z) :
  (i + length units <= length buff)%nat ->
  FaceId.fill units i buff
  = take i buff ++ map (fun c => c mod 256) units ++ drop (i + length units) buff.
Proof.
  revert i buff. induction units as [|c rest IH]; intros i buff Hlen; simpl in *.
  - by rewrite Nat.add_0_r, take_drop.
  - rewrite IH by (rewrite length_insert; lia).
    rewrite (take_S_r _ _ (c mod 256)) by (apply list_lookup_insert_eq; lia).
    rewrite take_insert_ge by lia. rewrite drop_insert_lt by lia.
    rewrite <- app_assoc. simpl. by rewrite Nat.add_succ_r.
Qed.

(** X22. [normalize] turns a string into the byte array of its code
    units, each reduced modulo 256: as many bytes as the string has code
    units, every one between 0 and 255, and the code units themselves when
    all of them are below 256. Any other value is returned as it is, so
    normalizing twice is normalizing once. *)
Theorem normalize_gives_bytes :
  (forall units,
     FaceId.normalize (FaceId.VString units)
     = FaceId.VBytes (map (fun c => c mod 256) units))
  /\ (forall units,
        Forall (fun c => 0 <= c < 256) units ->
        FaceId.normalize (FaceId.VString units) = FaceId.VBytes units)
  /\ (forall units bytes,
        FaceId.normalize (FaceId.VString units) = FaceId.VBytes bytes ->
        length bytes = length units /\ Forall (fun b => 0 <= b < 256) bytes)
  /\ (forall data, (forall units, data <> FaceId.VString units) ->
        FaceId.normalize data = data)
  /\ (forall data, FaceId.normalize (FaceId.normalize data) = FaceId.normalize data).
Proof.
  assert (Hstr : forall units,
             FaceId.normalize (FaceId.VString units)
             = FaceId.VBytes (map (fun c => c mod 256) units)).
  { intros units. unfold FaceId.normalize. rewrite fill_spec.
    - rewrite take_0. simpl. rewrite drop_ge by (rewrite length_replicate; lia).
      by rewrite app_nil_r.
    - rewrite length_replicate. lia. }
  split; [exact Hstr|]. split.
  { intros units Hall. rewrite Hstr. f_equal. etrans; [|apply map_id].
    apply map_ext_Forall. eapply Forall_impl; [exact Hall|].
    intros c Hc. simpl in Hc. by apply Z.mod_small. }
  split.
  { intros units bytes. rewrite Hstr. intros [= <-]. split; [apply length_map|].
    apply Forall_forall. intros b Hb. apply list_elem_of_fmap in Hb as (c & -> & _).
    by apply Z.mod_pos_bound. }
  split.
  { intros [units| |] Hne; [by destruct (Hne units) | done | done]. }
  intros [units| |]; [|done|done]. by rewrite Hstr.
Qed.

End Payload.

(** ** The detector calls of a scan *)

Section ScannerCalls.

Context (E : Worker.env).



End ScannerCalls.

Lemma compare_symmetric_witness :
  exists dist,
    (FaceLandmark.compare (FaceLandmark.new Examples.deep_face)
       (JS.Obj (FaceLandmark.new Examples.deep_face'))).2
    = JS.Ok (Some dist)
    /\ (FaceLandmark.compare (FaceLandmark.new Examples.deep_face')
          (JS.Obj (FaceLandmark.new Examples.deep_face))).2
       = JS.Ok (Some dist).
Proof.
  apply compare_symmetric. intros key Hkey. unfold Spec.feature_keys in Hkey.
  repeat (apply elem_of_cons in Hkey as [->|Hkey]; [reflexivity|]).
  by apply elem_of_nil in Hkey.
Defined.
